(** * Rw-Tools: the IP translation panel and its field schema

    A shallow embedding of [IpFieldService] (the canonical field list) and
    of the [handleResult] handler of the [IpTranslation] view, and a model
    of the translation engine that the specification describes, followed
    by the properties the specification states about them.

    JavaScript objects and arrays are mutable and compared by identity, so
    they live in an explicit store; the handler is written in a small
    state-and-failure monad over that store. The model comes first, the
    properties after it. *)

From Stdlib Require Import ZArith NArith Ascii Lia.
From stdpp Require Import base option list strings gmap fin_maps.

Local Open Scope string_scope.
Local Open Scope list_scope.

(* ===================================================================== *)
(** ** JavaScript values *)
(* ===================================================================== *)

(** Immediate values of the language. String literals of the source and
    strings received from the engine are kept as the UTF-8 bytes of their
    text; they are only ever compared for equality. [Num] carries the
    numbers by their integer value (every non-zero number behaves alike
    here), [NaN] is the one remaining falsy number. [Builtin] stands for
    an object that is not a field row: a built-in function, a nested
    array or object of a payload, an exception object. *)
Inductive JsValue : Type :=
  | Undefined
  | Null
  | Bool (b : bool)
  | Num (n : Z)
  | NaN
  | Str (s : string)
  | Builtin (name : string).

#[global] Instance JsValue_eq_dec : EqDecision JsValue.
Proof. solve_decision. Defined.

(** The abstract operation ToBoolean. *)
Definition ToBoolean (v : JsValue) : bool :=
  match v with
  | Undefined | Null | NaN => false
  | Bool b => b
  | Num n => negb (n =? 0)%Z
  | Str s => negb (String.eqb s "")
  | Builtin _ => true
  end.

(** [a || b]: the left operand when it is truthy, else the right one. *)
Definition js_or (a b : JsValue) : JsValue :=
  if ToBoolean a then a else b.

(** [a === b] on immediate values; [NaN] is not equal to itself. *)
Definition strict_eq (a b : JsValue) : bool :=
  match a, b with
  | Undefined, Undefined => true
  | Null, Null => true
  | Bool x, Bool y => Bool.eqb x y
  | Num x, Num y => (x =? y)%Z
  | Str x, Str y => String.eqb x y
  | Builtin x, Builtin y => String.eqb x y
  | _, _ => false
  end.

(** [a !== b]. *)
Definition strict_neq (a b : JsValue) : bool := negb (strict_eq a b).

(** A plain object as delivered by the command bridge: its own
    properties. *)
Abbreviation JsObject := (gmap string JsValue).

(** The property names every plain object inherits from
    [Object.prototype]. *)
Definition Object_prototype : list string :=
  [ "constructor"; "hasOwnProperty"; "isPrototypeOf"; "propertyIsEnumerable";
    "toLocaleString"; "toString"; "valueOf"; "__proto__";
    "__defineGetter__"; "__defineSetter__"; "__lookupGetter__";
    "__lookupSetter__" ].

(** [o[k]]: an own property wins, then the prototype answers, and a name
    found nowhere reads as [undefined]. *)
Definition Get (o : JsObject) (k : string) : JsValue :=
  match o !! k with
  | Some v => v
  | None => if bool_decide (k ∈ Object_prototype) then Builtin k else Undefined
  end.

(* ===================================================================== *)
(** ** User-entered text and [String.prototype.trim] *)
(* ===================================================================== *)

(** The text of the input box is inspected character by character by
    [trim], so it is kept as its sequence of UTF-16 code units. *)
Definition code_unit := N.
Definition jsstring := list code_unit.

(** Code units of an ASCII literal. *)
Definition units (s : string) : jsstring :=
  N_of_ascii <$> String.list_ascii_of_string s.

(** WhiteSpace and LineTerminator of the language: TAB, LF, VT, FF, CR,
    SP, NBSP, the remaining space separators, LS, PS and the BOM. *)
Definition is_white_space (c : code_unit) : bool :=
  ((9 <=? c) && (c <=? 13) || (c =? 32) || (c =? 160) || (c =? 5760)
   || (8192 <=? c) && (c <=? 8202) || (c =? 8232) || (c =? 8233)
   || (c =? 8239) || (c =? 8287) || (c =? 12288) || (c =? 65279))%N.

(** [s.trimStart()], [s.trimEnd()] and [s.trim()]. *)
Fixpoint trimStart (s : jsstring) : jsstring :=
  match s with
  | [] => []
  | c :: s' => if is_white_space c then trimStart s' else s
  end.

Definition trimEnd (s : jsstring) : jsstring :=
  reverse (trimStart (reverse s)).

Definition trim (s : jsstring) : jsstring := trimEnd (trimStart s).

(* ===================================================================== *)
(** ** The store *)
(* ===================================================================== *)

(** A row of the field table: [{key, field, value}]. *)
Record FieldItem : Type := mkItem {
  key : string;
  field : string;
  value : JsValue
}.

#[global] Instance FieldItem_eq_dec : EqDecision FieldItem.
Proof. solve_decision. Defined.

(** A reference to an object or an array. *)
Definition loc := nat.

(** What a reference points to: a row object or an array of references. *)
Inductive cell : Type :=
  | Item (i : FieldItem)
  | Array (elems : list loc).

(** A message handed to the toast service. *)
Record ToastMessage : Type := mkToast {
  severity : string;
  summary : string;
  detail : JsValue;
  life : Z
}.

(** The world the handler runs in: the object store (allocation appends,
    a reference is an index), the two [ref]s of the view, and the
    messages handed to the toast service so far. *)
Record World : Type := mkWorld {
  heap : list cell;
  resultList : loc;
  inputIp : jsstring;
  toasts : list ToastMessage
}.

(** Computations over the world that can fail (a reference used at the
    wrong type). *)
Definition M (A : Type) : Type := World -> option (A * World).

Definition ret {A} (a : A) : M A := fun w => Some (a, w).

Definition bind {A B} (m : M A) (k : A -> M B) : M B :=
  fun w => match m w with
           | Some (a, w') => k a w'
           | None => None
           end.

Definition fail {A} : M A := fun _ => None.

Notation "'do' x <- m ; k" := (bind m (fun x => k))
  (at level 10, x name, m at level 100, k at level 200).
Notation "'exec' m ; k" := (bind m (fun _ => k))
  (at level 10, m at level 100, k at level 200).

(** Creating an object or an array: the new cell goes to the end of the
    store and its index is the reference. *)
Definition alloc (c : cell) : M loc :=
  fun w => Some (length (heap w),
                 mkWorld (heap w ++ [c]) (resultList w) (inputIp w) (toasts w)).

(** Following a reference, to any cell, to a row, to an array. *)
Definition load (l : loc) : M cell :=
  fun w => match heap w !! l with
           | Some c => Some (c, w)
           | None => None
           end.

Definition load_item (l : loc) : M FieldItem :=
  do c <- load l;
  match c with Item i => ret i | Array _ => fail end.

Definition load_array (l : loc) : M (list loc) :=
  do c <- load l;
  match c with Array es => ret es | Item _ => fail end.

(** Running a callback on the elements of a list in order, collecting
    the results or the elements the callback accepts. *)
Fixpoint mapW {A B} (f : A -> M B) (l : list A) : M (list B) :=
  match l with
  | [] => ret []
  | a :: l' => do b <- f a; do bs <- mapW f l'; ret (b :: bs)
  end.

Fixpoint filterW {A} (p : A -> M bool) (l : list A) : M (list A) :=
  match l with
  | [] => ret []
  | a :: l' =>
      do keep <- p a; do rest <- filterW p l';
      ret (if keep then a :: rest else rest)
  end.

(** An array literal of object literals: the objects, then the array. *)
Definition new_array (items : list FieldItem) : M loc :=
  do ls <- mapW (fun i => alloc (Item i)) items;
  alloc (Array ls).

(** [a.map(f)] and [a.filter(p)]: each builds a new array. *)
Definition Array_map (a : loc) (f : loc -> M loc) : M loc :=
  do es <- load_array a;
  do out <- mapW f es;
  alloc (Array out).

Definition Array_filter (a : loc) (p : loc -> M bool) : M loc :=
  do es <- load_array a;
  do kept <- filterW p es;
  alloc (Array kept).

(** Reading an array of rows back out of a store. *)
Definition read_item (h : list cell) (l : loc) : option FieldItem :=
  match h !! l with
  | Some (Item i) => Some i
  | _ => None
  end.

Definition read_rows (h : list cell) (a : loc) : option (list FieldItem) :=
  match h !! a with
  | Some (Array es) => mapM (read_item h) es
  | _ => None
  end.

(* ===================================================================== *)
(** ** [IpFieldService] *)
(* ===================================================================== *)

Module IpFieldService.

(** The rows written out in the array literal of [getData]. *)
Definition rows : list FieldItem :=
  [
    mkItem "地址类型" "fieldType" (Str "");
    mkItem "压缩地址" "comAddress" (Str "");
    mkItem "扩展地址" "exAddress" (Str "");
    mkItem "二进制地址" "binaryAddress" (Str "");
    mkItem "子网" "subnet" (Str "");
    mkItem "子网掩码" "subnetMask" (Str "");
    mkItem "上一个地址" "prevAddress" (Str "");
    mkItem "下一个地址" "nextAddress" (Str "");
    mkItem "整数值" "intValue" (Str "");
    mkItem "高低64位有符号数" "highLow64BitSignedNumber" (Str "");
    mkItem "转为 IPv4" "toIpv4" (Str "");
    mkItem "转为 IPv6" "toIpv6" (Str "");
    mkItem "网络地址（开始ip）" "netWorkAddress" (Str "");
    mkItem "网络地址（开始ip）整数值" "netWorkAddressIntValue" (Str "");
    mkItem "网络地址（开始ip）高低64位有符号数" "netWorkAddressHighLow64BitSignedNumber" (Str "");
    mkItem "网络地址（开始ip）二进制地址" "netWorkAddressBinaryAddress" (Str "");
    mkItem "广播地址（结束ip）" "broadcastAddress" (Str "");
    mkItem "广播地址（结束ip）整数值" "broadcastAddressIntValue" (Str "");
    mkItem "广播地址（结束ip）高低64位有符号数" "broadcastAddressHighLow64BitSignedNumber" (Str "");
    mkItem "广播地址（结束ip）二进制地址" "broadcastAddressBinaryAddress" (Str "")
  ].

(** [getData()]: evaluates the literal, so every call builds twenty new
    objects and a new array holding them. *)
Definition getData : M loc := new_array rows.

(** [getFieldList()]: [return this.getData()], with [this] bound to the
    service object at every call site of the repository. *)
Definition getFieldList : M loc := getData.

End IpFieldService.

(* ===================================================================== *)
(** ** The [IpTranslation] view *)
(* ===================================================================== *)

(** How a call through the command bridge settles: the promise of
    [invoke('translate_ip', ...)] is fulfilled with the engine's result map
    or rejected with the engine's error value. *)
Inductive Settled : Type :=
  | Resolved (data : JsObject)
  | Rejected (err : JsValue).

(** Assigning and reading the [value] of the two [ref]s. *)
Definition set_resultList (a : loc) : M unit :=
  fun w => Some (tt, mkWorld (heap w) a (inputIp w) (toasts w)).

Definition get_inputIp : M jsstring :=
  fun w => Some (inputIp w, w).

Definition set_inputIp (s : jsstring) : M unit :=
  fun w => Some (tt, mkWorld (heap w) (resultList w) s (toasts w)).

(** [toast.add(message)]. *)
Definition toast_add (m : ToastMessage) : M unit :=
  fun w => Some (tt, mkWorld (heap w) (resultList w) (inputIp w) (toasts w ++ [m])).

(** The view as it is set up: [resultList = ref([])] and
    [inputIp = ref('172.17.205.22')]. *)
Definition setup : World :=
  mkWorld [Array []] 0 (units "172.17.205.22") [].

(** The synchronous part of [handleResult], up to the call of [invoke];
    it yields the [ip] argument submitted to [translate_ip]. *)
Definition handleResult_submit : M jsstring :=
  do a <- alloc (Array []);
  exec set_resultList a;
  do s <- get_inputIp;
  exec set_inputIp (trim s);
  get_inputIp.

(** The callback given to [then]. *)
Definition handleResult_then (data : JsObject) : M unit :=
  do ipFieldList <- IpFieldService.getFieldList;
  do mapped <- Array_map ipFieldList (fun item =>
      do o <- load_item item;
      alloc (Item (mkItem (key o) (field o)
                          (js_or (Get data (field o)) (Str "")))));
  do filtered <- Array_filter mapped (fun item =>
      do o <- load_item item;
      ret (strict_neq (value o) (Str "")));
  set_resultList filtered.

(** The callback given to [catch]. *)
Definition handleResult_catch (err : JsValue) : M unit :=
  toast_add (mkToast "error" "解析失败" err 1300).

Section Handler.

(** The engine behind the bridge. *)
Variable translate_ip : jsstring -> Settled.

(** One whole run of [handleResult]: the submission followed by the
    callback that the settled promise selects. On a result map the [then]
    callback does not throw, so [catch] is entered only by a rejected
    call. *)
Definition handleResult : M unit :=
  do ip <- handleResult_submit;
  match translate_ip ip with
  | Resolved data => handleResult_then data
  | Rejected err => handleResult_catch err
  end.

End Handler.

(** What the data table shows: the rows of [resultList.value]. *)
Definition displayed (w : World) : option (list FieldItem) :=
  read_rows (heap w) (resultList w).

(** The row the [map] callback builds from a schema row. *)
Definition fill (data : JsObject) (o : FieldItem) : FieldItem :=
  mkItem (key o) (field o) (js_or (Get data (field o)) (Str "")).

(** The test of the [filter] callback. *)
Definition kept (o : FieldItem) : Prop := strict_neq (value o) (Str "") = true.

#[global] Instance kept_dec o : Decision (kept o).
Proof. unfold kept. apply _. Defined.

(** JSON members of a result map, in the order the engine wrote them; a
    later duplicate overrides an earlier one. *)
Definition of_members (ms : list (string * JsValue)) : JsObject :=
  foldl (fun o kv => <[kv.1 := kv.2]> o) ∅ ms.

(* ===================================================================== *)
(** ** The rest of the view: typing, clicking and copying *)
(* ===================================================================== *)

(** [v-model="inputIp"] on the input box: what the user types becomes
    [inputIp.value]. *)
Definition type_input (s : jsstring) : M unit := set_inputIp s.

(** How [writeText(value)] of the clipboard plugin settles. *)
Inductive Written : Type :=
  | Copied
  | Refused (err : JsValue).

(** The callback [copyValue] gives to [then]. *)
Definition copyValue_then (value : JsValue) : M unit :=
  toast_add (mkToast "success" "复制成功" value 1300).

Definition get_resultList : M loc :=
  fun w => Some (resultList w, w).

Section Clipboard.

(** The clipboard behind [writeText]. *)
Variable writeText : JsValue -> Written.

(** [copyValue(value)]: the promise of [writeText(value)] has a [then]
    callback and no [catch], so a refused write runs nothing. *)
Definition copyValue (value : JsValue) : M unit :=
  match writeText value with
  | Copied => copyValue_then value
  | Refused _ => ret tt
  end.

(** A click on the value cell of the [i]-th row of the table:
    [@click="copyValue(data.value)"], with [data] the row the table
    renders there from [resultList]; beyond the last row there is no cell
    to click. *)
Definition click_value (i : nat) : M unit :=
  do a <- get_resultList;
  do es <- load_array a;
  match es !! i with
  | Some l => do o <- load_item l; copyValue (value o)
  | None => ret tt
  end.

End Clipboard.

(* ===================================================================== *)
(** ** Notions the statements and proofs are written with *)
(* ===================================================================== *)

(** The world after some cells were allocated. *)
Definition grow (w : World) (cs : list cell) : World :=
  mkWorld (heap w ++ cs) (resultList w) (inputIp w) (toasts w).

(** [points h es os]: in store [h] the references [es] lead to the rows
    [os], one by one. *)
Definition points (h : list cell) (es : list loc) (os : list FieldItem) : Prop :=
  Forall2 (fun l o => h !! l = Some (Item o)) es os.

(** A block of rows followed by the array that holds them, as every array
    construction of the program lays it out. *)
Definition block (n : nat) (items : list FieldItem) : list cell :=
  (Item <$> items) ++ [Array (seq n (length items))].

(** The rows the handler puts on display for a result map. *)
Definition shown (data : JsObject) : list FieldItem :=
  filter kept (fill data <$> IpFieldService.rows).

(** The label and field name of a row, without its value. *)
Definition heading (r : FieldItem) : string * string := (key r, field r).

(** The world right after the synchronous part of the handler. *)
Definition submitted (w : World) : World :=
  mkWorld (heap w ++ [Array []]) (length (heap w)) (trim (inputIp w)) (toasts w).

(** What one whole run of the handler leaves behind, by the way the call
    settles. *)
Definition outcome (s : Settled) (w w' : World) : Prop :=
  match s with
  | Resolved data => displayed w' = Some (shown data) /\ toasts w' = toasts w
  | Rejected err =>
      displayed w' = Some []
      /\ toasts w' = toasts w ++ [mkToast "error" "解析失败" err 1300]
  end.

(** Whether a value is a string. *)
Definition is_Str (v : JsValue) : bool :=
  match v with Str _ => true | _ => false end.

(** Modelled from the spec: the engine's [ResultRecord], "a mapping from
    field name to string value"; the type the engine declares for it is
    not among the front end's sources. *)
Definition ResultRecord (data : JsObject) : Prop :=
  map_Forall (fun _ v => is_Str v = true) data.

(** A field name the result map does not have, or has with the empty
    string. *)
Definition absent_or_empty (data : JsObject) (k : string) : Prop :=
  data !! k = None \/ data !! k = Some (Str "").

(* ===================================================================== *)
(** ** The translation engine, as the specification describes it *)
(* ===================================================================== *)

(** The engine runs behind the command bridge and its code is not part of
    the front end. What the specification states about it is settled on
    the model below, which follows the specification's data model and
    component contracts. *)
Module Engine.

Local Open Scope Z_scope.

(** Modelled from the spec: the [family] enum of [CanonicalAddress]
    (section 3); the engine's address type is not among the sources. *)
Inductive Family : Type := IPv4 | IPv6.

(** Modelled from the spec: [CanonicalAddress], "the sole internal
    representation": a family and the address bits as an unsigned
    integer. *)
Record CanonicalAddress : Type := mkAddr {
  family : Family;
  bits : Z
}.

(** Modelled from the spec: the width of the address bits, "32 bits for
    IPv4, 128 bits for IPv6". *)
Definition width (f : Family) : Z :=
  match f with IPv4 => 32 | IPv6 => 128 end.

(** Modelled from the spec: the invariant of [CanonicalAddress], "[bits]
    is always within the valid range for [family]". *)
Definition valid (a : CanonicalAddress) : Prop :=
  0 <= bits a < 2 ^ width (family a).

(** Modelled from the spec: [SubnetContext] (section 3). *)
Record SubnetContext : Type := mkSubnet {
  prefixLength : Z;
  mask : Z;
  networkAddress : Z;
  broadcastAddress : Z
}.

(** Modelled from the spec: the errors of the Subnet Calculator
    (section 7). *)
Inductive SubnetError : Type := InvalidPrefix | Underflow | Overflow.

(** Modelled from the spec: the mask, "[prefixLength] leading one-bits
    followed by zero-bits", in an address of [w] bits. *)
Definition mask_of (w p : Z) : Z := Z.shiftl (Z.ones p) (w - p).

(** Modelled from the spec: "NOT mask (width-bounded)". *)
Definition not_within (w m : Z) : Z := Z.land (Z.lnot m) (Z.ones w).

(** Modelled from the spec: [deriveSubnet] of the Subnet Calculator
    (section 4.3), with the section 3 definitions of the network and
    broadcast addresses. Without a prefix length the full width of the
    family is used; a prefix length that "is negative or exceeds the
    family's bit width" is refused. *)
Definition deriveSubnet (addr : CanonicalAddress) (prefix : option Z)
  : SubnetError + SubnetContext :=
  let w := width (family addr) in
  let p := default w prefix in
  if (p <? 0) || (w <? p) then inl InvalidPrefix
  else
    let m := mask_of w p in
    inr (mkSubnet p m (Z.land (bits addr) m)
                  (Z.lor (bits addr) (not_within w m))).

(** *** The Address Parser and the compressed form *)

(** Modelled from the spec: the "string" that [parse] takes and the
    formatter renders, as the list of its characters. *)
Definition text := list ascii.

(** Modelled from the spec: the errors of the Address Parser (section 7).
    [Ambiguous] "is not used". *)
Inductive ParseError : Type := InvalidFormat | OutOfRange.

(** Modelled from the spec: the code of a character, by which digits,
    letters and white space are told apart. *)
Definition code (c : ascii) : Z := Z.of_N (N_of_ascii c).

(** Modelled from the spec: the white space the parser "trims" around
    its input; the parser's own definition is not among the sources. *)
Definition is_space (c : ascii) : bool :=
  (9 <=? code c) && (code c <=? 13) || (code c =? 32).

(** Modelled from the spec: "trims surrounding whitespace", at the front
    and then at both ends. *)
Fixpoint skip_space (s : text) : text :=
  match s with
  | [] => []
  | c :: s' => if is_space c then skip_space s' else s
  end.

Definition trim_space (s : text) : text :=
  reverse (skip_space (reverse (skip_space s))).

(** Modelled from the spec: the value of a digit of a "decimal group"
    and of a digit of the "hexadecimal group syntax", in either case. *)
Definition digit_value (c : ascii) : option Z :=
  if (48 <=? code c) && (code c <=? 57) then Some (code c - 48) else None.

Definition hex_value (c : ascii) : option Z :=
  if (48 <=? code c) && (code c <=? 57) then Some (code c - 48)
  else if (97 <=? code c) && (code c <=? 102) then Some (code c - 87)
  else if (65 <=? code c) && (code c <=? 70) then Some (code c - 55)
  else None.

(** Modelled from the spec: reading a group or an integer, a run of
    digits with the most significant first; [decimal] and [hexadecimal]
    need at least one digit. *)
Fixpoint number_of (base : Z) (value : ascii -> option Z) (acc : Z) (s : text)
  : option Z :=
  match s with
  | [] => Some acc
  | c :: r =>
      match value c with
      | Some d => number_of base value (acc * base + d) r
      | None => None
      end
  end.

Definition decimal (s : text) : option Z :=
  match s with [] => None | _ => number_of 10 digit_value 0 s end.

Definition hexadecimal (s : text) : option Z :=
  match s with [] => None | _ => number_of 16 hex_value 0 s end.

(** Modelled from the spec: groups "separated by" a character: the
    pieces of a text between the occurrences of the separator, and the
    text written from such pieces. *)
Fixpoint split_on (sep : ascii) (s : text) : list text :=
  match s with
  | [] => [[]]
  | c :: r =>
      if Ascii.eqb c sep then [] :: split_on sep r
      else match split_on sep r with
           | h :: t => (c :: h) :: t
           | [] => [[c]]
           end
  end.

Fixpoint join (sep : ascii) (xs : list text) : text :=
  match xs with
  | [] => []
  | x :: r => match r with [] => x | _ => x ++ sep :: join sep r end
  end.

(** Modelled from the spec: the address bits made of octets or 16-bit
    groups, most significant first ("the standard textual-to-binary
    mapping"), and the [n] octets or groups of given bits. *)
Definition value_be (base : Z) (ds : list Z) : Z :=
  foldl (fun acc d => acc * base + d) 0 ds.

Fixpoint digits_be (base : Z) (n : nat) (b : Z) : list Z :=
  match n with
  | O => []
  | S n' => digits_be base n' (b / base) ++ [b mod base]
  end.

(** Modelled from the spec: "dotted-decimal IPv4 syntax (four ... decimal
    groups separated by [.])"; the values of the four groups, whatever
    their size. *)
Definition dotted (s : text) : option (list Z) :=
  match split_on "." s with
  | [a; b; c; d] => mapM decimal [a; b; c; d]
  | _ => None
  end.

(** Modelled from the spec: no octet "outside 0-255". *)
Definition octets_ok (ds : list Z) : bool := forallb (fun d => d <=? 255) ds.

(** Modelled from the spec: one 16-bit group of the IPv6 text form, one
    to four hexadecimal digits. *)
Definition group (p : text) : option Z :=
  if (1 <=? length p)%nat && (length p <=? 4)%nat then hexadecimal p else None.

(** Modelled from the spec: the groups written in colon-separated
    pieces; when [v4] is set the last piece may be the "optional trailing
    embedded IPv4", which fills two groups. *)
Fixpoint groups_of (v4 : bool) (pieces : list text) : ParseError + list Z :=
  match pieces with
  | [] => inr []
  | p :: r =>
      match r with
      | [] =>
          match group p with
          | Some g => inr [g]
          | None =>
              match (if v4 then dotted p else None) with
              | Some ds =>
                  if octets_ok ds
                  then inr (digits_be 65536 2 (value_be 256 ds))
                  else inl OutOfRange
              | None => inl InvalidFormat
              end
          end
      | _ =>
          match group p with
          | Some g =>
              match groups_of v4 r with
              | inr gs => inr (g :: gs)
              | inl e => inl e
              end
          | None => inl InvalidFormat
          end
      end
  end.

(** Modelled from the spec: the groups on one side of [::]; an empty
    side has none. *)
Definition side (v4 : bool) (s : text) : ParseError + list Z :=
  match s with [] => inr [] | _ => groups_of v4 (split_on ":" s) end.

(** Modelled from the spec: the text before and after the first [::],
    the "zero-run compression". *)
Fixpoint cut_gap (s : text) : option (text * text) :=
  match s with
  | [] => None
  | c :: r =>
      match r with
      | [] => None
      | c' :: r' =>
          if Ascii.eqb c ":" && Ascii.eqb c' ":" then Some ([], r')
          else match cut_gap r with
               | Some (l, t) => Some (c :: l, t)
               | None => None
               end
      end
  end.

(** Modelled from the spec: the IPv6 text form, "supporting the [::]
    zero-run compression and an optional trailing embedded IPv4 ... per
    the standard textual-to-binary mapping": eight groups, or fewer
    around one [::] that stands for the missing zero groups. *)
Definition parse_ipv6 (s : text) : ParseError + list Z :=
  match cut_gap s with
  | None =>
      match groups_of true (split_on ":" s) with
      | inr gs => if (length gs =? 8)%nat then inr gs else inl InvalidFormat
      | inl e => inl e
      end
  | Some (l, r) =>
      match side false l, side true r with
      | inr gl, inr gr =>
          if (length gl + length gr <=? 7)%nat
          then inr (gl ++ replicate (8 - (length gl + length gr)) 0 ++ gr)
          else inl InvalidFormat
      | inl e, _ => inl e
      | _, inl e => inl e
      end
  end.

(** Modelled from the spec: "a plain base-10 (optionally base-16
    prefixed) integer". *)
Definition integer (s : text) : option Z :=
  match s with
  | "0"%char :: x :: r =>
      if Ascii.eqb x "x" || Ascii.eqb x "X" then hexadecimal r else decimal s
  | _ => decimal s
  end.

(** Modelled from the spec: [parse] of the Address Parser (section 4.1),
    with its detection order: dotted-decimal IPv4 first, then IPv6 for a
    text with a colon, then an integer whose family follows from its
    magnitude. *)
Definition parse_text (input : text) : ParseError + CanonicalAddress :=
  let s := trim_space input in
  match dotted s with
  | Some ds =>
      if octets_ok ds then inr (mkAddr IPv4 (value_be 256 ds))
      else inl OutOfRange
  | None =>
      if bool_decide (":"%char ∈ s) then
        match parse_ipv6 s with
        | inr gs => inr (mkAddr IPv6 (value_be 65536 gs))
        | inl e => inl e
        end
      else
        match integer s with
        | Some v =>
            if v <? 2 ^ 32 then inr (mkAddr IPv4 v)
            else if v <? 2 ^ 128 then inr (mkAddr IPv6 v)
            else inl OutOfRange
        | None => inl InvalidFormat
        end
  end.

(** Modelled from the spec: [parse(input: string)], on a string. *)
Definition parse (input : string) : ParseError + CanonicalAddress :=
  parse_text (String.list_ascii_of_string input).

(** Modelled from the spec: a digit below sixteen as a character,
    letters in lower case as in the specification's scenarios. *)
Definition digit_char (d : Z) : ascii :=
  ascii_of_N (Z.to_N (if d <? 10 then 48 + d else 87 + d)).

(** Modelled from the spec: an octet in decimal and a group in
    hexadecimal, without leading zeros ("canonical shortest textual
    form"). *)
Definition print_octet (n : Z) : text :=
  if n <? 10 then [digit_char n]
  else if n <? 100 then [digit_char (n / 10); digit_char (n mod 10)]
  else [digit_char (n / 100); digit_char (n / 10 mod 10); digit_char (n mod 10)].

Definition print_group (g : Z) : text :=
  if g <? 16 then [digit_char g]
  else if g <? 256 then [digit_char (g / 16); digit_char (g mod 16)]
  else if g <? 4096
  then [digit_char (g / 256); digit_char (g / 16 mod 16); digit_char (g mod 16)]
  else [digit_char (g / 4096); digit_char (g / 256 mod 16);
        digit_char (g / 16 mod 16); digit_char (g mod 16)].

(** Modelled from the spec: the length of the run of zero groups at the
    front of some groups. *)
Fixpoint zero_run (gs : list Z) : nat :=
  match gs with
  | g :: r => if g =? 0 then S (zero_run r) else O
  | [] => O
  end.

(** Modelled from the spec: start and length of "the longest run of
    consecutive zero 16-bit groups ..., ties broken by leftmost run". *)
Fixpoint longest_zero_run (gs : list Z) : nat * nat :=
  match gs with
  | [] => (O, O)
  | _ :: r =>
      let here := zero_run gs in
      let '(s, l) := longest_zero_run r in
      if (l <=? here)%nat then (O, here) else (S s, l)
  end.

Section Formatter.

(** Modelled from the spec: the least length of a zero run that the
    compressed form collapses. The specification collapses "the longest
    run of consecutive zero 16-bit groups ... per the standard
    compression rule" and does not say whether a single zero group is
    such a run; the standard rule asks for two. *)
Variable min_run : nat.

(** Modelled from the spec: the compressed IPv6 form, "the longest run
    of consecutive zero 16-bit groups collapsed to [::], ties broken by
    leftmost run"; groups are written in hexadecimal without leading
    zeros. *)
Definition write_groups (gs : list Z) : text :=
  let '(start, len) := longest_zero_run gs in
  if (min_run <=? len)%nat then
    join ":" (print_group <$> take start gs)
    ++ ":"%char :: ":"%char
       :: join ":" (print_group <$> drop (start + len) gs)
  else join ":" (print_group <$> gs).

(** Modelled from the spec: the compressed address of the Representation
    Formatter (section 4.2): "dotted-decimal for IPv4; for IPv6" the
    compressed groups. *)
Definition compressed_text (a : CanonicalAddress) : text :=
  match family a with
  | IPv4 => join "." (print_octet <$> digits_be 256 4 (bits a))
  | IPv6 => write_groups (digits_be 65536 8 (bits a))
  end.

(** Modelled from the spec: the compressed-address field of [format],
    as a string. *)
Definition compressed (a : CanonicalAddress) : string :=
  String.string_of_list_ascii (compressed_text a).

End Formatter.

(** *** Notions the proofs about the engine are written with *)

(** A text is tight when it has no [::] inside and no [:] at its end. *)
Fixpoint tight (s : text) : bool :=
  match s with
  | [] => true
  | c :: r =>
      if Ascii.eqb c ":" then
        match r with
        | [] => false
        | c' :: _ => negb (Ascii.eqb c' ":") && tight r
        end
      else tight r
  end.

(** The characters the compressed form is written with, besides the
    separators: decimal digits and lower-case hexadecimal letters. *)
Definition hexish (c : ascii) : Prop :=
  48 <= code c <= 57 \/ 97 <= code c <= 102.

(** The range of a 16-bit group and of an octet. *)
Definition is_group (g : Z) : Prop := 0 <= g < 65536.

Definition is_octet (d : Z) : Prop := 0 <= d < 256.

(** Characters of the compressed IPv6 form. *)
Definition group_char (c : ascii) : Prop := hexish c \/ c = ":"%char.

End Engine.

(* ===================================================================== *)
(** ** A first run *)
(* ===================================================================== *)

Example run_172 :
  (handleResult (fun _ => Resolved (of_members
       [("fieldType", Str "IPv4"); ("comAddress", Str "172.17.205.22");
        ("toIpv4", Str ""); ("intValue", Num 0)])) setup) ≫= (fun r => displayed r.2)
  = Some [mkItem "地址类型" "fieldType" (Str "IPv4");
          mkItem "压缩地址" "comAddress" (Str "172.17.205.22")].
Proof. vm_compute. reflexivity. Qed.

(* ===================================================================== *)
(** ** Reasoning about the store *)
(* ===================================================================== *)

Lemma grow_nil w : grow w [] = w.
Proof. destruct w. unfold grow. simpl. by rewrite app_nil_r. Qed.

Lemma grow_grow w a b : grow (grow w a) b = grow w (a ++ b).
Proof. unfold grow. simpl. by rewrite app_assoc. Qed.

Lemma alloc_grow c w : alloc c w = Some (length (heap w), grow w [c]).
Proof. reflexivity. Qed.

Lemma mapW_alloc items w :
  mapW (fun i => alloc (Item i)) items w
  = Some (seq (length (heap w)) (length items), grow w (Item <$> items)).
Proof.
  revert w. induction items as [|a items IH]; intros w; simpl.
  - unfold ret. by rewrite grow_nil.
  - unfold bind at 1. rewrite alloc_grow.
    unfold bind at 1. rewrite IH. unfold ret.
    rewrite grow_grow. simpl. rewrite length_app. simpl.
    by replace (length (heap w) + 1) with (S (length (heap w))) by lia.
Qed.

Lemma new_array_grow items w :
  new_array items w
  = Some (length (heap w) + length items,
          grow w ((Item <$> items)
                    ++ [Array (seq (length (heap w)) (length items))])).
Proof.
  unfold new_array, bind. rewrite mapW_alloc, alloc_grow, grow_grow.
  simpl. by rewrite length_app, length_fmap.
Qed.

Lemma points_alloc h items rest :
  points (h ++ (Item <$> items) ++ rest) (seq (length h) (length items)) items.
Proof.
  revert h. induction items as [|a items IH]; intros h; simpl.
  - constructor.
  - constructor.
    + by rewrite list_lookup_middle.
    + specialize (IH (h ++ [Item a])).
      rewrite length_app in IH. simpl in IH.
      replace (length h + 1) with (S (length h)) in IH by lia.
      by rewrite <- app_assoc in IH.
Qed.

Lemma points_mono h h' es os : points h es os -> points (h ++ h') es os.
Proof.
  unfold points. intros H. eapply Forall2_impl; [exact H|].
  intros l o E. by apply lookup_app_l_Some.
Qed.

Lemma points_length h es os : points h es os -> length es = length os.
Proof. apply Forall2_length. Qed.

Lemma points_read h es os : points h es os -> mapM (read_item h) es = Some os.
Proof.
  intros H. apply mapM_Some. eapply Forall2_impl; [exact H|].
  intros l o E. unfold read_item. by rewrite E.
Qed.

Lemma load_item_points w l o :
  heap w !! l = Some (Item o) -> load_item l w = Some (o, w).
Proof. intros E. unfold load_item, bind, load. by rewrite E. Qed.

(** A [map] callback that copies the row it is given through [g]. *)
Lemma mapW_copy (g : FieldItem -> FieldItem) es os w :
  points (heap w) es os ->
  mapW (fun item => do o <- load_item item; alloc (Item (g o))) es w
  = Some (seq (length (heap w)) (length os), grow w (Item <$> (g <$> os))).
Proof.
  intros H. revert w H. revert os.
  induction es as [|l es IH]; intros os w H; inversion H as [|? o ? os' E H']; subst;
    simpl.
  - unfold ret. by rewrite grow_nil.
  - unfold bind at 1. unfold bind at 1.
    rewrite (load_item_points _ _ _ E), alloc_grow.
    unfold bind at 1.
    rewrite (IH os' (grow w [Item (g o)])).
    + unfold ret. rewrite grow_grow. simpl. rewrite length_app. simpl.
      by replace (length (heap w) + 1) with (S (length (heap w))) by lia.
    + by apply points_mono.
Qed.

(** A [filter] callback that tests the row it is given with [q]. *)
Lemma filterW_test (q : FieldItem -> bool) es os w :
  points (heap w) es os ->
  exists ks,
    filterW (fun item => do o <- load_item item; ret (q o)) es w = Some (ks, w)
    /\ points (heap w) ks (filter (fun o => q o = true) os).
Proof.
  intros H. induction H as [|l o es os E H IH]; simpl.
  - exists []. split; [done | constructor].
  - destruct IH as (ks & Hks & Hp).
    unfold bind at 1. unfold bind at 1.
    rewrite (load_item_points _ _ _ E). unfold ret at 1.
    unfold bind at 1. rewrite Hks. unfold ret.
    rewrite filter_cons. destruct (q o) eqn:Q.
    + exists (l :: ks). split; [done|].
      rewrite decide_True by done. by constructor.
    + exists ks. split; [done|].
      by rewrite decide_False by done.
Qed.

Lemma block_array h items :
  (h ++ block (length h) items) !! (length h + length items)
  = Some (Array (seq (length h) (length items))).
Proof.
  unfold block. rewrite app_assoc.
  apply list_lookup_middle. by rewrite length_app, length_fmap.
Qed.

Lemma block_points h items :
  points (h ++ block (length h) items) (seq (length h) (length items)) items.
Proof. apply points_alloc. Qed.

Lemma block_read h items rest :
  read_rows ((h ++ block (length h) items) ++ rest) (length h + length items)
  = Some items.
Proof.
  unfold read_rows.
  rewrite (lookup_app_l_Some _ _ _ _ (block_array h items)).
  apply points_read, points_mono, block_points.
Qed.

Lemma Array_map_copy (g : FieldItem -> FieldItem) a es os w :
  heap w !! a = Some (Array es) ->
  points (heap w) es os ->
  Array_map a (fun item => do o <- load_item item; alloc (Item (g o))) w
  = Some (length (heap w) + length os,
          grow w (block (length (heap w)) (g <$> os))).
Proof.
  intros Ha Hp. unfold Array_map, load_array, load.
  unfold bind at 1. unfold bind at 1. rewrite Ha. unfold ret at 1.
  unfold bind at 1. rewrite (mapW_copy g es os w Hp).
  rewrite alloc_grow, grow_grow. unfold block. simpl.
  by rewrite length_app, !length_fmap.
Qed.

Lemma Array_filter_test (q : FieldItem -> bool) a es os w :
  heap w !! a = Some (Array es) ->
  points (heap w) es os ->
  exists ks,
    Array_filter a (fun item => do o <- load_item item; ret (q o)) w
    = Some (length (heap w), grow w [Array ks])
    /\ points (heap w) ks (filter (fun o => q o = true) os).
Proof.
  intros Ha Hp. destruct (filterW_test q es os w Hp) as (ks & Hf & Hk).
  exists ks. split; [|done].
  unfold Array_filter, load_array, load.
  unfold bind at 1. unfold bind at 1. rewrite Ha. unfold ret at 1.
  unfold bind at 1. by rewrite Hf.
Qed.

(** [getData] always returns, and what it returns is new: the array and
    its rows lie beyond every reference of the store it started from,
    which it leaves as it was. *)
Lemma getData_grow w :
  IpFieldService.getData w
  = Some (length (heap w) + length IpFieldService.rows,
          grow w (block (length (heap w)) IpFieldService.rows)).
Proof. unfold IpFieldService.getData. by rewrite new_array_grow. Qed.

(** The [then] callback always returns; it leaves the old store, the
    input box and the toasts alone and points [resultList] at a new array
    holding [shown data]. *)
Lemma handleResult_then_runs data w :
  exists w',
    handleResult_then data w = Some (tt, w')
    /\ displayed w' = Some (shown data)
    /\ (exists cs, heap w' = heap w ++ cs)
    /\ length (heap w) <= resultList w'
    /\ inputIp w' = inputIp w
    /\ toasts w' = toasts w.
Proof.
  unfold handleResult_then, IpFieldService.getFieldList.
  unfold bind at 1. rewrite getData_grow.
  set (n := length (heap w)). set (rs := IpFieldService.rows).
  set (w1 := grow w (block n rs)).
  assert (Ha1 : heap w1 !! (n + length rs) = Some (Array (seq n (length rs))))
    by apply block_array.
  assert (Hp1 : points (heap w1) (seq n (length rs)) rs) by apply block_points.
  unfold bind at 1.
  change (Array_map _ _ w1)
    with (Array_map (n + length rs)
            (fun item => do o <- load_item item; alloc (Item (fill data o))) w1).
  rewrite (Array_map_copy (fill data) _ _ _ w1 Ha1 Hp1).
  set (n1 := length (heap w1)).
  set (w2 := grow w1 (block n1 (fill data <$> rs))).
  assert (Ha2 : heap w2 !! (n1 + length rs)
                = Some (Array (seq n1 (length rs)))).
  { pose proof (block_array (heap w1) (fill data <$> rs)) as H.
    by rewrite length_fmap in H. }
  assert (Hp2 : points (heap w2) (seq n1 (length rs)) (fill data <$> rs)).
  { pose proof (block_points (heap w1) (fill data <$> rs)) as H.
    by rewrite length_fmap in H. }
  destruct (Array_filter_test (fun o => strict_neq (value o) (Str "")) _ _ _ w2 Ha2 Hp2)
    as (ks & Hf & Hk).
  cbv beta in Hf.
  unfold bind at 1. rewrite Hf.
  eexists. split; [reflexivity|].
  unfold set_resultList, displayed; simpl. repeat split.
  - unfold read_rows. rewrite list_lookup_middle by done.
    apply points_read. by apply points_mono.
  - eexists. rewrite <- !app_assoc. reflexivity.
  - rewrite !length_app. lia.
Qed.

(* ===================================================================== *)
(** ** Facts about the field table and the displayed rows *)
(* ===================================================================== *)

(** [getData] returns from every world; the array it returns reads back
    as the rows of the literal. *)
Lemma getData_returns w :
  exists a w',
    IpFieldService.getData w = Some (a, w')
    /\ read_rows (heap w') a = Some IpFieldService.rows.
Proof.
  eexists _, _. split; [apply getData_grow|].
  simpl. rewrite <- (app_nil_r (heap w ++ _)). apply block_read.
Qed.

(** None of the schema's field names is answered by [Object.prototype],
    so on them [data[field]] is the own property or [undefined]. *)
Lemma rows_not_inherited :
  Forall (fun e => field e ∉ Object_prototype) IpFieldService.rows.
Proof. apply (bool_decide_unpack _). vm_compute. exact I. Qed.

Lemma Get_schema (data : JsObject) e :
  e ∈ IpFieldService.rows ->
  Get data (field e) = default Undefined (data !! field e).
Proof.
  intros He. unfold Get. destruct (data !! field e); [done|].
  pose proof rows_not_inherited as H. rewrite Forall_forall in H.
  by rewrite bool_decide_eq_false_2 by (apply H, He).
Qed.

Lemma truthy_not_empty v : ToBoolean v = true -> strict_neq v (Str "") = true.
Proof.
  unfold strict_neq. destruct v; simpl; try done.
Qed.

(** A filled row passes the filter exactly when the looked-up value is
    truthy, and then it carries that value. *)
Lemma kept_fill (data : JsObject) e :
  kept (fill data e) <-> ToBoolean (Get data (field e)) = true.
Proof.
  unfold kept, fill, js_or. simpl.
  destruct (ToBoolean (Get data (field e))) eqn:T.
  - split; [done|]. intros _. by apply truthy_not_empty.
  - split; [|done]. by vm_compute.
Qed.

Lemma fill_truthy (data : JsObject) e :
  ToBoolean (Get data (field e)) = true ->
  fill data e = mkItem (key e) (field e) (Get data (field e)).
Proof. intros T. unfold fill, js_or. by rewrite T. Qed.

Lemma elem_of_shown (data : JsObject) r :
  r ∈ shown data <->
  exists e, e ∈ IpFieldService.rows
            /\ ToBoolean (Get data (field e)) = true
            /\ r = mkItem (key e) (field e) (Get data (field e)).
Proof.
  unfold shown. rewrite list_elem_of_filter, list_elem_of_fmap. split.
  - intros (K & e & -> & He). apply kept_fill in K.
    exists e. split; [done|]. split; [done|]. by apply fill_truthy.
  - intros (e & He & T & ->). rewrite <- (fill_truthy data e T).
    split; [by apply kept_fill|]. by exists e.
Qed.

Lemma shown_sublist (data : JsObject) :
  sublist (heading <$> shown data) (heading <$> IpFieldService.rows).
Proof.
  unfold shown.
  replace (heading <$> IpFieldService.rows)
    with (heading <$> (fill data <$> IpFieldService.rows)).
  - apply fmap_sublist, sublist_filter.
  - rewrite <- list_fmap_compose. by apply list_fmap_ext.
Qed.

Lemma rows_fields_NoDup : NoDup (field <$> IpFieldService.rows).
Proof. apply (bool_decide_unpack _). vm_compute. exact I. Qed.

Lemma rows_keys_NoDup : NoDup (key <$> IpFieldService.rows).
Proof. apply (bool_decide_unpack _). vm_compute. exact I. Qed.

(* ===================================================================== *)
(** ** Facts about [trim] and about one run of the handler *)
(* ===================================================================== *)

Lemma trimStart_head s :
  from_option is_white_space false (head (trimStart s)) = false.
Proof.
  induction s as [|c s IH]; simpl; [done|].
  destruct (is_white_space c) eqn:W; [done|]. simpl. exact W.
Qed.

(** [trimStart] only removes white space from the front. *)
Lemma trimStart_cut s :
  exists pre, s = pre ++ trimStart s /\ forallb is_white_space pre = true.
Proof.
  induction s as [|c s (pre & E & W)]; simpl.
  - by exists [].
  - destruct (is_white_space c) eqn:C.
    + exists (c :: pre). simpl. rewrite C, W. split; [by f_equal|done].
    + by exists [].
Qed.

(** [trimEnd] only removes white space from the back. *)
Lemma trimEnd_cut s :
  exists post, s = trimEnd s ++ post /\ forallb is_white_space post = true.
Proof.
  unfold trimEnd. destruct (trimStart_cut (reverse s)) as (pre & E & W).
  exists (reverse pre). split.
  - rewrite <- reverse_app, <- E. symmetry. apply reverse_involutive.
  - rewrite forallb_forall in *. intros c Hc. apply W.
    apply list_elem_of_In. apply list_elem_of_In in Hc.
    by rewrite elem_of_reverse in Hc.
Qed.

Lemma trimEnd_last s :
  from_option is_white_space false (last (trimEnd s)) = false.
Proof. unfold trimEnd. rewrite last_reverse. apply trimStart_head. Qed.

Lemma trimEnd_head s :
  from_option is_white_space false (head s) = false ->
  from_option is_white_space false (head (trimEnd s)) = false.
Proof.
  destruct (trimEnd_cut s) as (post & E & _). intros H.
  rewrite E in H. by destruct (trimEnd s).
Qed.

(** [trim] removes white space at both ends, nothing else, and leaves
    none at either end. *)
Lemma trim_cut s :
  exists pre post,
    s = pre ++ trim s ++ post
    /\ forallb is_white_space pre = true
    /\ forallb is_white_space post = true.
Proof.
  destruct (trimStart_cut s) as (pre & E1 & W1).
  destruct (trimEnd_cut (trimStart s)) as (post & E2 & W2).
  exists pre, post. unfold trim. by rewrite <- E2.
Qed.

Lemma trim_ends s :
  from_option is_white_space false (head (trim s)) = false
  /\ from_option is_white_space false (last (trim s)) = false.
Proof.
  unfold trim. split.
  - apply trimEnd_head, trimStart_head.
  - apply trimEnd_last.
Qed.

Lemma handleResult_submit_runs w :
  handleResult_submit w = Some (trim (inputIp w), submitted w).
Proof. reflexivity. Qed.

Lemma submitted_displayed w : displayed (submitted w) = Some [].
Proof.
  unfold displayed, read_rows, submitted. simpl.
  by rewrite list_lookup_middle.
Qed.

Lemma handleResult_runs (translate_ip : jsstring -> Settled) w :
  exists w',
    handleResult translate_ip w = Some (tt, w')
    /\ outcome (translate_ip (trim (inputIp w))) w w'
    /\ inputIp w' = trim (inputIp w).
Proof.
  unfold handleResult, bind. rewrite handleResult_submit_runs.
  destruct (translate_ip (trim (inputIp w))) as [data|err]; simpl.
  - destruct (handleResult_then_runs data (submitted w))
      as (w' & R & D & _ & _ & I & T).
    exists w'. by repeat split.
  - eexists. split; [reflexivity|]. split; [|done].
    split; [|done]. apply submitted_displayed.
Qed.

(* ===================================================================== *)
(** ** The field schema *)
(* ===================================================================== *)

(** C1. The list returned by [IpFieldService.getData] carries, as the
    [field] entries of its rows, exactly the twenty engine field names,
    in the order the specification lists them. *)
Theorem getData_field_names (w : World) :
  exists a w' rs,
    IpFieldService.getData w = Some (a, w')
    /\ read_rows (heap w') a = Some rs
    /\ length rs = 20
    /\ field <$> rs
       = [ "fieldType"; "comAddress"; "exAddress"; "binaryAddress";
                "subnet"; "subnetMask"; "prevAddress"; "nextAddress";
                "intValue"; "highLow64BitSignedNumber"; "toIpv4"; "toIpv6";
                "netWorkAddress"; "netWorkAddressIntValue";
                "netWorkAddressHighLow64BitSignedNumber";
                "netWorkAddressBinaryAddress"; "broadcastAddress";
                "broadcastAddressIntValue";
                "broadcastAddressHighLow64BitSignedNumber";
                "broadcastAddressBinaryAddress" ].
Proof.
  destruct (getData_returns w) as (a & w' & R & Rd).
  exists a, w', IpFieldService.rows.
  split; [exact R|]. split; [exact Rd|]. split; reflexivity.
Qed.

(** C8. [getFieldList] delegates to [getData]: run from the same world
    the two calls behave identically, and run from any two worlds both
    return, with arrays that read back as the same list of rows. *)
Theorem getFieldList_is_getData (w1 w2 : World) :
  IpFieldService.getFieldList w1 = IpFieldService.getData w1
  /\ exists a1 w1' a2 w2' rs,
       IpFieldService.getFieldList w1 = Some (a1, w1')
       /\ IpFieldService.getData w2 = Some (a2, w2')
       /\ read_rows (heap w1') a1 = Some rs
       /\ read_rows (heap w2') a2 = Some rs.
Proof.
  split; [reflexivity|].
  destruct (getData_returns w1) as (a1 & w1' & R1 & D1).
  destruct (getData_returns w2) as (a2 & w2' & R2 & D2).
  exists a1, w1', a2, w2', IpFieldService.rows.
  split; [exact R1|]. split; [exact R2|]. split; [exact D1|exact D2].
Qed.

Lemma rows_field_inj :
  Forall (fun r1 => Forall (fun r2 => field r1 = field r2 -> r1 = r2)
                      IpFieldService.rows) IpFieldService.rows.
Proof. apply (bool_decide_unpack _). vm_compute. exact I. Qed.

Lemma rows_key_inj :
  Forall (fun r1 => Forall (fun r2 => key r1 = key r2 -> r1 = r2)
                      IpFieldService.rows) IpFieldService.rows.
Proof. apply (bool_decide_unpack _). vm_compute. exact I. Qed.

Lemma shown_fields_NoDup (data : JsObject) : NoDup (field <$> shown data).
Proof.
  apply (sublist_NoDup _ (field <$> IpFieldService.rows)).
  - apply rows_fields_NoDup.
  - pose proof (shown_sublist data) as H.
    apply (fmap_sublist snd) in H.
    by rewrite <- !list_fmap_compose in H.
Qed.

(** C9. In the list returned by [getData] the [field] names are pairwise
    distinct and so are the [key] labels: a row is determined by its
    label and by its field name. Hence the rows put on display for a
    result map never share a field name. *)
Theorem getData_names_distinct (w : World) (data : JsObject) :
  exists a w' rs,
    IpFieldService.getData w = Some (a, w')
    /\ read_rows (heap w') a = Some rs
    /\ NoDup (field <$> rs)
    /\ NoDup (key <$> rs)
    /\ (forall r1 r2, r1 ∈ rs -> r2 ∈ rs -> key r1 = key r2 -> r1 = r2)
    /\ (forall r1 r2, r1 ∈ rs -> r2 ∈ rs -> field r1 = field r2 -> r1 = r2)
    /\ exists w'' shown_rows,
         handleResult_then data w = Some (tt, w'')
         /\ displayed w'' = Some shown_rows
         /\ NoDup (field <$> shown_rows).
Proof.
  destruct (getData_returns w) as (a & w' & R & Rd).
  exists a, w', IpFieldService.rows.
  split; [exact R|]. split; [exact Rd|].
  split; [apply rows_fields_NoDup|]. split; [apply rows_keys_NoDup|].
  split; [|split].
  - intros r1 r2 H1 H2. pose proof rows_key_inj as H.
    rewrite Forall_forall in H. specialize (H r1 H1).
    rewrite Forall_forall in H. by apply H.
  - intros r1 r2 H1 H2. pose proof rows_field_inj as H.
    rewrite Forall_forall in H. specialize (H r1 H1).
    rewrite Forall_forall in H. by apply H.
  - destruct (handleResult_then_runs data w) as (w'' & Rn & D & _).
    exists w'', (shown data). split; [exact Rn|]. split; [exact D|].
    apply shown_fields_NoDup.
Qed.

(* ===================================================================== *)
(** ** The handler *)
(* ===================================================================== *)

(** C3. Whatever the input box holds, the handler stores its trimmed
    text back and submits exactly that text to [translate_ip]: the engine
    is applied to [trim (inputIp w)], which differs from the entered text
    only by white space removed at the two ends and neither begins nor
    ends with a white-space character. *)
Theorem handleResult_submits_trimmed
    (translate_ip : jsstring -> Settled) (w : World) :
  handleResult_submit w = Some (trim (inputIp w), submitted w)
  /\ inputIp (submitted w) = trim (inputIp w)
  /\ handleResult translate_ip w
     = match translate_ip (trim (inputIp w)) with
       | Resolved data => handleResult_then data (submitted w)
       | Rejected err => handleResult_catch err (submitted w)
       end
  /\ from_option is_white_space false (head (trim (inputIp w))) = false
  /\ from_option is_white_space false (last (trim (inputIp w))) = false
  /\ exists pre post,
       inputIp w = pre ++ trim (inputIp w) ++ post
       /\ forallb is_white_space pre = true
       /\ forallb is_white_space post = true.
Proof.
  split; [reflexivity|]. split; [reflexivity|].
  split.
  { unfold handleResult, bind. rewrite handleResult_submit_runs.
    by destruct (translate_ip (trim (inputIp w))). }
  destruct (trim_ends (inputIp w)) as [Hh Hl].
  split; [exact Hh|]. split; [exact Hl|]. apply trim_cut.
Qed.

Example trim_ideographic :
  trim ([12288; 32] ++ units "172.17.205.22" ++ [9; 10; 160])%N
  = units "172.17.205.22".
Proof. vm_compute. reflexivity. Qed.

(** C4. When the call is rejected with an error value, the handler hands
    the toast service one more message, an [error] toast whose [detail]
    is that very value; nothing is put on display. *)
Theorem rejected_error_shown_verbatim
    (translate_ip : jsstring -> Settled) (w : World) (err : JsValue) :
  translate_ip (trim (inputIp w)) = Rejected err ->
  exists w',
    handleResult translate_ip w = Some (tt, w')
    /\ toasts w' = toasts w ++ [mkToast "error" "解析失败" err 1300]
    /\ detail <$> last (toasts w') = Some err
    /\ displayed w' = Some [].
Proof.
  intros E. destruct (handleResult_runs translate_ip w) as (w' & R & O & _).
  rewrite E in O. destruct O as [D T].
  exists w'. split; [exact R|]. split; [exact T|]. split; [|exact D].
  rewrite T, last_snoc. reflexivity.
Qed.

Lemma rejected_error_shown_verbatim_witness :
  exists w',
    handleResult (fun _ => Rejected (Str "OutOfRange")) setup = Some (tt, w')
    /\ toasts w' = toasts setup ++ [mkToast "error" "解析失败" (Str "OutOfRange") 1300]
    /\ detail <$> last (toasts w') = Some (Str "OutOfRange")
    /\ displayed w' = Some [].
Proof.
  apply (rejected_error_shown_verbatim
           (fun _ => Rejected (Str "OutOfRange")) setup (Str "OutOfRange")).
  reflexivity.
Defined.

(** C5. Nothing is carried from one call to the next. The handler points
    [resultList] at a new empty array before it calls the engine.
    [getData] returns from every store, leaves that store as it was, and
    returns an array and rows that were not in it, every row with the
    empty string as its [value]. And what a whole run puts on display is
    fixed by the input text and the engine's answer alone: it is the same
    from any other store, result list and toast history; so is what the
    [then] callback puts on display, in whatever world the promise
    settles. *)
Theorem no_state_across_calls
    (translate_ip : jsstring -> Settled) (w : World)
    (h : list cell) (r : loc) (t : list ToastMessage) (data : JsObject) :
  (exists ip w1,
      handleResult_submit w = Some (ip, w1)
      /\ displayed w1 = Some []
      /\ heap w !! resultList w1 = None)
  /\ (exists a w' es rs,
        IpFieldService.getData w = Some (a, w')
        /\ heap w' !! a = Some (Array es)
        /\ heap w !! a = None
        /\ Forall (fun l => heap w !! l = None) es
        /\ (exists cs, heap w' = heap w ++ cs)
        /\ read_rows (heap w') a = Some rs
        /\ Forall (fun i => value i = Str "") rs)
  /\ (exists w' w'' rs,
        handleResult translate_ip w = Some (tt, w')
        /\ handleResult translate_ip (mkWorld h r (inputIp w) t) = Some (tt, w'')
        /\ displayed w' = Some rs
        /\ displayed w'' = Some rs
        /\ rs = match translate_ip (trim (inputIp w)) with
                | Resolved d => shown d
                | Rejected _ => []
                end)
  /\ (exists w' w'',
        handleResult_then data w = Some (tt, w')
        /\ handleResult_then data (mkWorld h r (inputIp w) t) = Some (tt, w'')
        /\ displayed w' = displayed w''
        /\ displayed w' = Some (shown data)).
Proof.
  split; [|split; [|split]].
  - exists (trim (inputIp w)), (submitted w).
    split; [reflexivity|]. split; [apply submitted_displayed|].
    simpl. by apply lookup_ge_None.
  - exists (length (heap w) + length IpFieldService.rows),
           (grow w (block (length (heap w)) IpFieldService.rows)),
           (seq (length (heap w)) (length IpFieldService.rows)),
           IpFieldService.rows.
    split; [apply getData_grow|]. unfold grow; cbn [heap].
    split; [apply block_array|].
    split; [apply lookup_ge_None; lia|].
    split; [|split; [|split]].
    + apply Forall_forall. intros l Hl. apply lookup_ge_None.
      apply elem_of_seq in Hl. lia.
    + by eexists.
    + rewrite <- (app_nil_r (heap w ++ _)). apply block_read.
    + apply (bool_decide_unpack _). vm_compute. exact I.
  - destruct (handleResult_runs translate_ip w) as (w' & R & O & _).
    destruct (handleResult_runs translate_ip (mkWorld h r (inputIp w) t))
      as (w'' & R' & O' & _).
    simpl in O'. exists w', w''.
    destruct (translate_ip (trim (inputIp w))) as [d|err];
      destruct O as [D _]; destruct O' as [D' _]; eexists;
      (split; [exact R|]); (split; [exact R'|]);
      (split; [exact D|]); (split; [exact D'|]); reflexivity.
  - destruct (handleResult_then_runs data w) as (w' & R & D & _).
    destruct (handleResult_then_runs data (mkWorld h r (inputIp w) t))
      as (w'' & R' & D' & _).
    exists w', w''. split; [exact R|]. split; [exact R'|].
    split; [by rewrite D, D'|exact D].
Qed.

Lemma shown_has_field (data : JsObject) e :
  e ∈ IpFieldService.rows ->
  (exists r, r ∈ shown data /\ field r = field e)
  <-> ToBoolean (default Undefined (data !! field e)) = true.
Proof.
  intros He. rewrite <- (Get_schema data e He). split.
  - intros (r & Hr & F). apply elem_of_shown in Hr.
    destruct Hr as (e' & _ & T & ->). simpl in F. by rewrite <- F.
  - intros T. exists (mkItem (key e) (field e) (Get data (field e))).
    split; [|done]. apply elem_of_shown. by exists e.
Qed.

Lemma shown_lacks_field (data : JsObject) e :
  e ∈ IpFieldService.rows ->
  (forall r, r ∈ shown data -> field r ≠ field e)
  <-> ToBoolean (default Undefined (data !! field e)) = false.
Proof.
  intros He. pose proof (shown_has_field data e He) as H.
  destruct (ToBoolean (default Undefined (data !! field e))).
  - split; [|done]. intros N. destruct H as [_ H].
    destruct (H eq_refl) as (r & Hr & F). by destruct (N r Hr).
  - split; [done|]. intros _ r Hr F.
    destruct H as [H _]. discriminate H. by exists r.
Qed.

(** C2. When the call settles with a result map whose values are
    strings, the rows on display leave out exactly the schema entries
    whose field name the map lacks or gives the empty string; every other
    schema entry is on display with the value the map gives its field
    name, and nothing else is. *)
Theorem displayed_rows_of_result
    (translate_ip : jsstring -> Settled) (w : World) (data : JsObject) :
  translate_ip (trim (inputIp w)) = Resolved data ->
  ResultRecord data ->
  exists w' rs,
    handleResult translate_ip w = Some (tt, w')
    /\ displayed w' = Some rs
    /\ (forall e, e ∈ IpFieldService.rows ->
          (absent_or_empty data (field e)
           <-> forall r, r ∈ rs -> field r ≠ field e)
          /\ (forall v, data !! field e = Some v -> v ≠ Str "" ->
                        mkItem (key e) (field e) v ∈ rs))
    /\ (forall r, r ∈ rs ->
          exists e, e ∈ IpFieldService.rows
                    /\ key r = key e /\ field r = field e
                    /\ data !! field e = Some (value r)).
Proof.
  intros E RR. destruct (handleResult_runs translate_ip w) as (w' & R & O & _).
  rewrite E in O. destruct O as [D _].
  exists w', (shown data). split; [exact R|]. split; [exact D|]. split.
  - intros e He. split.
    + rewrite (shown_lacks_field data e He). unfold absent_or_empty.
      destruct (data !! field e) as [v|] eqn:L; simpl.
      * pose proof (map_Forall_lookup_1 _ _ _ _ RR L) as S.
        destruct v as [| | | | |s|]; try discriminate S. simpl.
        destruct (String.eqb_spec s ""); subst; simpl.
        -- split; [done|]. intros _. by right.
        -- split; [|done]. intros [?|[=]]; [done|]. by subst.
      * split; [done|]. intros _. by left.
    + intros v L Hv.
      pose proof (map_Forall_lookup_1 _ _ _ _ RR L) as S.
      destruct v as [| | | | |s|]; try discriminate S.
      apply elem_of_shown. exists e. split; [exact He|].
      rewrite (Get_schema data e He), L. simpl. split; [|done].
      destruct (String.eqb_spec s ""); [by subst|done].
  - intros r Hr. apply elem_of_shown in Hr.
    destruct Hr as (e & He & T & ->). exists e. simpl.
    split; [exact He|]. split; [done|]. split; [done|].
    rewrite (Get_schema data e He) in *.
    destruct (data !! field e); [done|]. discriminate T.
Qed.

Lemma displayed_rows_of_result_witness :
  exists w' rs,
    handleResult
      (fun _ => Resolved (of_members
         [("fieldType", Str "IPv4"); ("comAddress", Str "172.17.205.22");
          ("toIpv4", Str ""); ("intValue", Str "2886847766");
          ("toIpv6", Str "::ffff:172.17.205.22")])) setup = Some (tt, w')
    /\ displayed w' = Some rs
    /\ (forall e, e ∈ IpFieldService.rows ->
          (absent_or_empty (of_members
             [("fieldType", Str "IPv4"); ("comAddress", Str "172.17.205.22");
              ("toIpv4", Str ""); ("intValue", Str "2886847766");
              ("toIpv6", Str "::ffff:172.17.205.22")]) (field e)
           <-> forall r, r ∈ rs -> field r ≠ field e)
          /\ (forall v, of_members
             [("fieldType", Str "IPv4"); ("comAddress", Str "172.17.205.22");
              ("toIpv4", Str ""); ("intValue", Str "2886847766");
              ("toIpv6", Str "::ffff:172.17.205.22")] !! field e = Some v ->
                v ≠ Str "" -> mkItem (key e) (field e) v ∈ rs))
    /\ (forall r, r ∈ rs ->
          exists e, e ∈ IpFieldService.rows
                    /\ key r = key e /\ field r = field e
                    /\ of_members
             [("fieldType", Str "IPv4"); ("comAddress", Str "172.17.205.22");
              ("toIpv4", Str ""); ("intValue", Str "2886847766");
              ("toIpv6", Str "::ffff:172.17.205.22")] !! field e
                       = Some (value r)).
Proof.
  apply (displayed_rows_of_result
           (fun _ => Resolved (of_members
              [("fieldType", Str "IPv4"); ("comAddress", Str "172.17.205.22");
               ("toIpv4", Str ""); ("intValue", Str "2886847766");
               ("toIpv6", Str "::ffff:172.17.205.22")])) setup).
  - reflexivity.
  - apply (bool_decide_unpack _). vm_compute. exact I.
Defined.

Lemma of_members_snoc ms k v :
  of_members (ms ++ [(k, v)]) = <[k := v]> (of_members ms).
Proof. unfold of_members. by rewrite foldl_app. Qed.

Lemma of_members_list_to_map ms : of_members ms = list_to_map (reverse ms).
Proof.
  induction ms as [|[k v] ms IH] using rev_ind; [done|].
  by rewrite of_members_snoc, reverse_snoc, list_to_map_cons, IH.
Qed.

(** Writing the members of a result map in another order gives the same
    object, as long as no key is written twice. *)
Lemma of_members_perm ms1 ms2 :
  NoDup ms1.*1 -> ms1 ≡ₚ ms2 -> of_members ms1 = of_members ms2.
Proof.
  intros N P. rewrite !of_members_list_to_map.
  apply list_to_map_proper.
  - by rewrite fmap_reverse, reverse_Permutation.
  - by rewrite !reverse_Permutation.
Qed.

(** C10. The rows on display follow the order of the schema: labels and
    field names of the displayed rows form a subsequence of those of the
    field list, and a schema entry whose looked-up value is missing or
    falsy (not only the empty string) has no row. The order in which the
    engine wrote the members of its result map plays no part: two
    listings of the same members yield the same display. *)
Theorem displayed_rows_in_schema_order
    (data : JsObject) (ms1 ms2 : list (string * JsValue)) (w : World) :
  NoDup ms1.*1 ->
  ms1 ≡ₚ ms2 ->
  (exists w' rs,
      handleResult_then data w = Some (tt, w')
      /\ displayed w' = Some rs
      /\ sublist (heading <$> rs) (heading <$> IpFieldService.rows)
      /\ (forall e, e ∈ IpFieldService.rows ->
            ToBoolean (default Undefined (data !! field e)) = false ->
            forall r, r ∈ rs -> field r ≠ field e))
  /\ (exists w1 w2 rs,
        handleResult_then (of_members ms1) w = Some (tt, w1)
        /\ handleResult_then (of_members ms2) w = Some (tt, w2)
        /\ displayed w1 = Some rs
        /\ displayed w2 = Some rs).
Proof.
  intros N P. split.
  - destruct (handleResult_then_runs data w) as (w' & R & D & _).
    exists w', (shown data). split; [exact R|]. split; [exact D|].
    split; [apply shown_sublist|].
    intros e He F. by apply shown_lacks_field.
  - destruct (handleResult_then_runs (of_members ms1) w) as (w1 & R1 & D1 & _).
    exists w1, w1, (shown (of_members ms1)).
    rewrite <- (of_members_perm ms1 ms2 N P).
    split; [exact R1|]. split; [exact R1|]. split; exact D1.
Qed.

Lemma displayed_rows_in_schema_order_witness :
  (exists w' rs,
      handleResult_then
        (of_members [("intValue", Num 0); ("toIpv4", Null);
                     ("subnet", Bool false); ("fieldType", Str "IPv4")]) setup
      = Some (tt, w')
      /\ displayed w' = Some rs
      /\ sublist (heading <$> rs) (heading <$> IpFieldService.rows)
      /\ (forall e, e ∈ IpFieldService.rows ->
            ToBoolean (default Undefined
              (of_members [("intValue", Num 0); ("toIpv4", Null);
                           ("subnet", Bool false); ("fieldType", Str "IPv4")]
               !! field e)) = false ->
            forall r, r ∈ rs -> field r ≠ field e))
  /\ (exists w1 w2 rs,
        handleResult_then
          (of_members [("comAddress", Str "::1"); ("fieldType", Str "IPv6")])
          setup = Some (tt, w1)
        /\ handleResult_then
             (of_members [("fieldType", Str "IPv6"); ("comAddress", Str "::1")])
             setup = Some (tt, w2)
        /\ displayed w1 = Some rs
        /\ displayed w2 = Some rs).
Proof.
  apply (displayed_rows_in_schema_order
           (of_members [("intValue", Num 0); ("toIpv4", Null);
                        ("subnet", Bool false); ("fieldType", Str "IPv4")])
           [("comAddress", Str "::1"); ("fieldType", Str "IPv6")]
           [("fieldType", Str "IPv6"); ("comAddress", Str "::1")]
           setup).
  - apply (bool_decide_unpack _). vm_compute. exact I.
  - apply perm_swap.
Defined.

Example falsy_values_hidden :
  handleResult_then
    (of_members [("intValue", Num 0); ("toIpv4", Null); ("subnet", Bool false);
                 ("exAddress", NaN); ("fieldType", Str "IPv4");
                 ("comAddress", Bool true)]) setup
    ≫= (fun r => displayed r.2)
  = Some [mkItem "地址类型" "fieldType" (Str "IPv4");
          mkItem "压缩地址" "comAddress" (Bool true)].
Proof. vm_compute. reflexivity. Qed.

(* ===================================================================== *)
(** ** Further properties of the view *)
(* ===================================================================== *)

(** *** What is submitted *)

Lemma trimStart_id s :
  from_option is_white_space false (head s) = false -> trimStart s = s.
Proof. destruct s as [|c s]; simpl; [done|]. by intros ->. Qed.

Lemma trimEnd_id s :
  from_option is_white_space false (last s) = false -> trimEnd s = s.
Proof.
  intros H. unfold trimEnd. rewrite trimStart_id.
  - apply reverse_involutive.
  - by rewrite head_reverse.
Qed.

Lemma trim_id s :
  from_option is_white_space false (head s) = false ->
  from_option is_white_space false (last s) = false ->
  trim s = s.
Proof. intros Hh Hl. unfold trim. rewrite (trimStart_id s Hh). by apply trimEnd_id. Qed.

Lemma trim_idempotent s : trim (trim s) = trim s.
Proof. destruct (trim_ends s). by apply trim_id. Qed.

Lemma trimStart_blank s : forallb is_white_space s = true -> trimStart s = [].
Proof.
  induction s as [|c s IH]; simpl; [done|].
  intros H. apply andb_true_iff in H. destruct H as [-> H]. by apply IH.
Qed.

Lemma trim_blank s : trim s = [] <-> forallb is_white_space s = true.
Proof.
  split.
  - intros E. destruct (trim_cut s) as (pre & post & D & Wpre & Wpost).
    rewrite E in D. rewrite D. simpl. rewrite forallb_app. by rewrite Wpre, Wpost.
  - intros H. unfold trim. by rewrite (trimStart_blank s H).
Qed.

(** X1. Running the handler again without editing the box submits the
    same text again: after any run the box holds its trimmed text, and
    trimming that once more changes nothing. *)
Theorem handleResult_again (translate_ip : jsstring -> Settled) (w : World) :
  exists w1 w2 ws,
    handleResult translate_ip w = Some (tt, w1)
    /\ inputIp w1 = trim (inputIp w)
    /\ handleResult_submit w1 = Some (trim (inputIp w), ws)
    /\ handleResult translate_ip w1 = Some (tt, w2)
    /\ inputIp w2 = inputIp w1.
Proof.
  destruct (handleResult_runs translate_ip w) as (w1 & R1 & _ & I1).
  destruct (handleResult_runs translate_ip w1) as (w2 & R2 & _ & I2).
  exists w1, w2, (submitted w1).
  split; [exact R1|]. split; [exact I1|]. split.
  - rewrite handleResult_submit_runs, I1. by rewrite trim_idempotent.
  - split; [exact R2|]. rewrite I2, I1. apply trim_idempotent.
Qed.

(** X2. The handler submits the text of the box unchanged exactly when
    that text neither begins nor ends with a white-space character;
    white space inside the text is never touched. *)
Theorem handleResult_submits_unchanged (w : World) :
  exists ip w1,
    handleResult_submit w = Some (ip, w1)
    /\ (ip = inputIp w
        <-> from_option is_white_space false (head (inputIp w)) = false
            /\ from_option is_white_space false (last (inputIp w)) = false).
Proof.
  exists (trim (inputIp w)), (submitted w). split; [reflexivity|]. split.
  - intros E. rewrite <- E. apply trim_ends.
  - intros [Hh Hl]. by apply trim_id.
Qed.

(** X3. The handler has no guard for an empty box: it calls the engine in
    every case, and the text it submits is empty exactly when the box
    holds nothing but white space. *)
Theorem handleResult_submits_blank
    (translate_ip : jsstring -> Settled) (w : World) :
  exists ip w1,
    handleResult_submit w = Some (ip, w1)
    /\ (ip = [] <-> forallb is_white_space (inputIp w) = true)
    /\ handleResult translate_ip w
       = match translate_ip ip with
         | Resolved data => handleResult_then data w1
         | Rejected err => handleResult_catch err w1
         end.
Proof.
  exists (trim (inputIp w)), (submitted w). split; [reflexivity|].
  split; [apply trim_blank|].
  unfold handleResult, bind. rewrite handleResult_submit_runs.
  by destruct (translate_ip (trim (inputIp w))).
Qed.

Example blank_box_submits_empty :
  handleResult_submit (mkWorld [Array []] 0 [32; 12288; 9]%N [])
  = Some ([], submitted (mkWorld [Array []] 0 [32; 12288; 9]%N [])).
Proof. reflexivity. Qed.

(** *** What is displayed, for any result map *)

Lemma truthy_lookup (data : JsObject) k :
  ToBoolean (default Undefined (data !! k)) = true ->
  data !! k = Some (default Undefined (data !! k)).
Proof. by destruct (data !! k). Qed.

Lemma shown_rows (data : JsObject) r :
  r ∈ shown data <->
  exists e, e ∈ IpFieldService.rows
            /\ ToBoolean (default Undefined (data !! field e)) = true
            /\ r = mkItem (key e) (field e) (default Undefined (data !! field e)).
Proof.
  rewrite elem_of_shown. split; intros (e & He & T & ->); exists e;
    rewrite (Get_schema data e He) in *;
    (split; [exact He|]); (split; [exact T|reflexivity]).
Qed.

(** X4. Whatever the values of the result map are, the [then] callback
    displays a schema entry exactly when the value looked up for its
    field is truthy, and then with that value as it is, not turned into a
    string. Every value on display is truthy, is not the empty string,
    and is the value the map holds for the row's field, under the label
    the schema gives that field. *)
Theorem displayed_values_truthy (data : JsObject) (w : World) :
  exists w' rs,
    handleResult_then data w = Some (tt, w')
    /\ displayed w' = Some rs
    /\ (forall e, e ∈ IpFieldService.rows ->
          ToBoolean (default Undefined (data !! field e)) = true ->
          mkItem (key e) (field e) (default Undefined (data !! field e)) ∈ rs)
    /\ (forall r, r ∈ rs ->
          ToBoolean (value r) = true
          /\ value r ≠ Str ""
          /\ data !! field r = Some (value r)
          /\ exists e, e ∈ IpFieldService.rows
                       /\ key r = key e /\ field r = field e).
Proof.
  destruct (handleResult_then_runs data w) as (w' & R & D & _).
  exists w', (shown data). split; [exact R|]. split; [exact D|]. split.
  - intros e He T. apply shown_rows. exists e.
    split; [exact He|]. split; [exact T|reflexivity].
  - intros r Hr. apply shown_rows in Hr. destruct Hr as (e & He & T & ->).
    simpl. split; [exact T|]. split; [|split].
    + intros E. rewrite E in T. discriminate T.
    + apply truthy_lookup, T.
    + exists e. split; [exact He|]. split; reflexivity.
Qed.

(** X5. A fulfilled call raises no toast and leaves the input box alone,
    whatever the result map. The table shows at most twenty rows, and it
    is empty exactly when no schema field has a truthy value in the map;
    so it is for the empty map. *)
Theorem resolved_display_empty (data : JsObject) (w : World) :
  exists w' rs w0,
    handleResult_then data w = Some (tt, w')
    /\ displayed w' = Some rs
    /\ toasts w' = toasts w
    /\ inputIp w' = inputIp w
    /\ length rs <= 20
    /\ (rs = [] <->
        forall e, e ∈ IpFieldService.rows ->
                  ToBoolean (default Undefined (data !! field e)) = false)
    /\ handleResult_then ∅ w = Some (tt, w0)
    /\ displayed w0 = Some [].
Proof.
  destruct (handleResult_then_runs data w) as (w' & R & D & _ & _ & I & T).
  destruct (handleResult_then_runs ∅ w) as (w0 & R0 & D0 & _).
  exists w', (shown data), w0.
  split; [exact R|]. split; [exact D|]. split; [exact T|]. split; [exact I|].
  split; [|split; [|split; [exact R0|exact D0]]].
  - unfold shown. etrans; [apply length_filter|]. by rewrite length_fmap.
  - split.
    + intros E e He. destruct (ToBoolean (default Undefined (data !! field e))) eqn:B;
        [|done].
      assert (Hin : mkItem (key e) (field e) (default Undefined (data !! field e))
                    ∈ shown data).
      { apply shown_rows. exists e.
        split; [exact He|]. split; [exact B|reflexivity]. }
      rewrite E in Hin. apply elem_of_nil in Hin. destruct Hin.
    + intros F. destruct (shown data) as [|r rs] eqn:E; [done|].
      assert (Hin : r ∈ shown data) by (rewrite E; left).
      apply shown_rows in Hin. destruct Hin as (e & He & T' & _).
      rewrite (F e He) in T'. discriminate T'.
Qed.

Lemma shown_agree (d1 d2 : JsObject) :
  (forall e, e ∈ IpFieldService.rows -> d1 !! field e = d2 !! field e) ->
  shown d1 = shown d2.
Proof.
  intros A. unfold shown. f_equal. apply list_fmap_ext. intros i e Hi.
  apply list_elem_of_lookup_2 in Hi. unfold fill.
  rewrite (Get_schema d1 e Hi), (Get_schema d2 e Hi), (A e Hi). reflexivity.
Qed.

(** X6. Members of the result map under names that are not schema
    fields are ignored: two result maps that agree on the twenty schema
    fields are displayed alike. *)
Theorem unknown_members_ignored (d1 d2 : JsObject) (w : World) :
  (forall e, e ∈ IpFieldService.rows -> d1 !! field e = d2 !! field e) ->
  exists w1 w2 rs,
    handleResult_then d1 w = Some (tt, w1)
    /\ handleResult_then d2 w = Some (tt, w2)
    /\ displayed w1 = Some rs
    /\ displayed w2 = Some rs.
Proof.
  intros A.
  destruct (handleResult_then_runs d1 w) as (w1 & R1 & D1 & _).
  destruct (handleResult_then_runs d2 w) as (w2 & R2 & D2 & _).
  exists w1, w2, (shown d1).
  split; [exact R1|]. split; [exact R2|]. split; [exact D1|].
  rewrite (shown_agree d1 d2 A). exact D2.
Qed.

Lemma unknown_members_ignored_witness :
  exists w1 w2 rs,
    handleResult_then (of_members [("fieldType", Str "IPv4")]) setup
    = Some (tt, w1)
    /\ handleResult_then
         (of_members [("fieldType", Str "IPv4"); ("elapsed", Num 3);
                      ("toString", Str "x")]) setup
       = Some (tt, w2)
    /\ displayed w1 = Some rs
    /\ displayed w2 = Some rs.
Proof.
  apply (unknown_members_ignored
           (of_members [("fieldType", Str "IPv4")])
           (of_members [("fieldType", Str "IPv4"); ("elapsed", Num 3);
                        ("toString", Str "x")])
           setup).
  apply Forall_forall. apply (bool_decide_unpack _). vm_compute. exact I.
Defined.

(** X12. The labels in the table are pairwise distinct, whatever the
    result map: no two displayed rows carry the same [key]. *)
Theorem displayed_labels_distinct (data : JsObject) (w : World) :
  exists w' rs,
    handleResult_then data w = Some (tt, w')
    /\ displayed w' = Some rs
    /\ NoDup (key <$> rs).
Proof.
  destruct (handleResult_then_runs data w) as (w' & R & D & _).
  exists w', (shown data). split; [exact R|]. split; [exact D|].
  apply (sublist_NoDup _ (key <$> IpFieldService.rows)).
  - apply rows_keys_NoDup.
  - pose proof (shown_sublist data) as H.
    apply (fmap_sublist fst) in H.
    rewrite <- !list_fmap_compose in H. exact H.
Qed.

(** *** Calls that overlap, and the store *)

(** X7. Nothing ties a response to the latest submission. When the user
    submits, types another text and submits again, and the second call is
    fulfilled before the first, the table ends up showing the rows of the
    first call while the box holds the second text. *)
Theorem display_follows_settlement_order
    (w : World) (typed : jsstring) (data1 data2 : JsObject) :
  exists w',
    (do ip1 <- handleResult_submit;
     exec type_input typed;
     do ip2 <- handleResult_submit;
     exec handleResult_then data2;
     exec handleResult_then data1;
     ret (ip1, ip2)) w
    = Some ((trim (inputIp w), trim typed), w')
    /\ displayed w' = Some (shown data1)
    /\ inputIp w' = trim typed.
Proof.
  unfold bind at 1. rewrite handleResult_submit_runs.
  unfold bind at 1. unfold type_input, set_inputIp at 1.
  unfold bind at 1. rewrite handleResult_submit_runs.
  cbn [inputIp].
  set (ws := submitted (mkWorld _ _ typed _)).
  destruct (handleResult_then_runs data2 ws) as (w2 & R2 & _ & _ & _ & I2 & _).
  unfold bind at 1. rewrite R2.
  destruct (handleResult_then_runs data1 w2) as (w1 & R1 & D1 & _ & _ & I1 & _).
  unfold bind at 1. rewrite R1. unfold ret.
  exists w1. split; [reflexivity|]. split; [exact D1|].
  rewrite I1, I2. reflexivity.
Qed.

Lemma read_rows_mono h cs a rs :
  read_rows h a = Some rs -> read_rows (h ++ cs) a = Some rs.
Proof.
  unfold read_rows. destruct (h !! a) as [[i|es]|] eqn:E; try done.
  rewrite (lookup_app_l_Some _ _ _ _ E). rewrite !mapM_Some.
  intros H. eapply Forall2_impl; [exact H|]. intros l o. unfold read_item.
  destruct (h !! l) as [c|] eqn:L; [|done].
  by rewrite (lookup_app_l_Some _ _ _ _ L).
Qed.

(** X8. A run of the handler only adds to the store. Whichever way the
    call settles, every object and array that existed before the run is
    still there unchanged, so an array of rows obtained earlier (a
    previous display, a list from [getData]) reads the same afterwards. *)
Theorem handleResult_keeps_store
    (translate_ip : jsstring -> Settled) (w : World) :
  exists w',
    handleResult translate_ip w = Some (tt, w')
    /\ (forall l c, heap w !! l = Some c -> heap w' !! l = Some c)
    /\ (forall a rs, read_rows (heap w) a = Some rs ->
                     read_rows (heap w') a = Some rs).
Proof.
  assert (G : exists w' cs, handleResult translate_ip w = Some (tt, w')
                            /\ heap w' = heap w ++ cs).
  { unfold handleResult, bind. rewrite handleResult_submit_runs.
    destruct (translate_ip (trim (inputIp w))) as [data|err].
    - destruct (handleResult_then_runs data (submitted w))
        as (w' & R & _ & (cs & H) & _).
      exists w', ([Array []] ++ cs). split; [exact R|].
      rewrite H. simpl. by rewrite <- app_assoc.
    - eexists _, [Array []]. split; reflexivity. }
  destruct G as (w' & cs & R & H). exists w'. split; [exact R|].
  rewrite H. split.
  - intros l c. apply lookup_app_l_Some.
  - intros a rs. apply read_rows_mono.
Qed.

(** X9. Two calls of [getData] share nothing: the second returns another
    array, no row object of one is a row object of the other, and after
    both calls each array still reads as the rows of the literal. *)
Theorem getData_twice_disjoint (w : World) :
  exists a1 w1 a2 w2 es1 es2,
    IpFieldService.getData w = Some (a1, w1)
    /\ IpFieldService.getData w1 = Some (a2, w2)
    /\ a1 ≠ a2
    /\ heap w2 !! a1 = Some (Array es1)
    /\ heap w2 !! a2 = Some (Array es2)
    /\ (forall l, l ∈ es1 -> l ∉ es2)
    /\ (a1 ∉ es2) /\ (a2 ∉ es1)
    /\ read_rows (heap w2) a1 = Some IpFieldService.rows
    /\ read_rows (heap w2) a2 = Some IpFieldService.rows.
Proof.
  set (rs := IpFieldService.rows). set (n := length (heap w)).
  set (w1 := grow w (block n rs)).
  set (n1 := length (heap w1)).
  set (w2 := grow w1 (block n1 rs)).
  assert (N1 : n1 = n + length rs + 1).
  { unfold n1, w1, grow, block. cbn [heap].
    rewrite !length_app, length_fmap. simpl. lia. }
  exists (n + length rs), w1, (n1 + length rs), w2,
         (seq n (length rs)), (seq n1 (length rs)).
  split; [apply getData_grow|]. split; [apply getData_grow|].
  split; [lia|]. split; [|split; [|split; [|split; [|split; [|split]]]]].
  - unfold w2, grow. cbn [heap]. apply lookup_app_l_Some. apply block_array.
  - apply block_array.
  - intros l H1 H2. apply elem_of_seq in H1. apply elem_of_seq in H2. lia.
  - intros H. apply elem_of_seq in H. lia.
  - intros H. apply elem_of_seq in H. lia.
  - unfold w2, grow. cbn [heap]. apply block_read.
  - unfold w2, grow. cbn [heap].
    rewrite <- (app_nil_r (heap w1 ++ _)). apply block_read.
Qed.

(** *** Copying a value *)

Lemma click_value_row (writeText : JsValue -> Written) w rs i r :
  displayed w = Some rs ->
  rs !! i = Some r ->
  click_value writeText i w = copyValue writeText (value r) w.
Proof.
  unfold displayed, read_rows. intros D Hi.
  destruct (heap w !! resultList w) as [[?|es]|] eqn:E; try done.
  apply mapM_Some in D.
  destruct (Forall2_lookup_r _ _ _ _ _ D Hi) as (l & Hl & Hr).
  unfold read_item in Hr. destruct (heap w !! l) as [[o|?]|] eqn:L; try done.
  injection Hr as ->.
  unfold click_value, get_resultList, load_array, load, bind. rewrite E.
  unfold ret. rewrite Hl. unfold load_item, load, bind. by rewrite L.
Qed.

(** X10. [copyValue] touches nothing but the toasts. When the clipboard
    takes the value, exactly one toast is added, a [success] toast whose
    [detail] is the copied value itself; when the clipboard refuses, the
    view does not change at all: no toast tells the user that the copy
    failed. *)
Theorem copyValue_effect
    (writeText : JsValue -> Written) (v : JsValue) (w : World) :
  exists w',
    copyValue writeText v w = Some (tt, w')
    /\ heap w' = heap w
    /\ resultList w' = resultList w
    /\ inputIp w' = inputIp w
    /\ toasts w'
       = match writeText v with
         | Copied => toasts w ++ [mkToast "success" "复制成功" v 1300]
         | Refused _ => toasts w
         end
    /\ match writeText v with
       | Copied => True
       | Refused _ => w' = w
       end.
Proof.
  unfold copyValue. destruct (writeText v) as [|err].
  - eexists. split; [reflexivity|]. by repeat split.
  - exists w. by repeat split.
Qed.

(** X11. After a fulfilled call, a click on the value of a displayed row
    copies what the engine returned for that row's field: with a clipboard
    that takes it, the toast added shows exactly the value the result map
    holds under the row's field name, and the table stays as it is. *)
Theorem click_copies_engine_value
    (writeText : JsValue -> Written) (data : JsObject) (w : World)
    (i : nat) (r : FieldItem) :
  shown data !! i = Some r ->
  writeText (value r) = Copied ->
  exists w' w'',
    handleResult_then data w = Some (tt, w')
    /\ click_value writeText i w' = Some (tt, w'')
    /\ data !! field r = Some (value r)
    /\ toasts w'' = toasts w ++ [mkToast "success" "复制成功" (value r) 1300]
    /\ displayed w'' = Some (shown data).
Proof.
  intros Hi C.
  destruct (handleResult_then_runs data w) as (w' & R & D & _ & _ & _ & T).
  destruct (copyValue_effect writeText (value r) w')
    as (w'' & Cv & Hh & Hr & _ & Ht & _).
  rewrite C in Ht.
  exists w', w''. split; [exact R|]. split.
  - rewrite (click_value_row writeText w' (shown data) i r D Hi). exact Cv.
  - split; [|split].
    + apply list_elem_of_lookup_2, shown_rows in Hi.
      destruct Hi as (e & _ & Tr & ->). simpl. apply truthy_lookup, Tr.
    + rewrite Ht, T. reflexivity.
    + unfold displayed. rewrite Hh, Hr. exact D.
Qed.

Lemma click_copies_engine_value_witness :
  exists w' w'',
    handleResult_then
      (of_members [("fieldType", Str "IPv4"); ("comAddress", Str "10.0.0.1")])
      setup = Some (tt, w')
    /\ click_value (fun _ => Copied) 1 w' = Some (tt, w'')
    /\ of_members [("fieldType", Str "IPv4"); ("comAddress", Str "10.0.0.1")]
       !! field (mkItem "压缩地址" "comAddress" (Str "10.0.0.1"))
       = Some (value (mkItem "压缩地址" "comAddress" (Str "10.0.0.1")))
    /\ toasts w''
       = toasts setup
         ++ [mkToast "success" "复制成功"
               (value (mkItem "压缩地址" "comAddress" (Str "10.0.0.1"))) 1300]
    /\ displayed w''
       = Some (shown (of_members [("fieldType", Str "IPv4");
                                  ("comAddress", Str "10.0.0.1")])).
Proof.
  apply (click_copies_engine_value (fun _ => Copied)
           (of_members [("fieldType", Str "IPv4"); ("comAddress", Str "10.0.0.1")])
           setup 1 (mkItem "压缩地址" "comAddress" (Str "10.0.0.1"))).
  - vm_compute. reflexivity.
  - reflexivity.
Defined.

Example click_beyond_rows :
  (do _ <- handleResult_then (of_members [("fieldType", Str "IPv4")]);
   click_value (fun _ => Copied) 5) setup
  ≫= (fun r => Some (toasts r.2))
  = Some [].
Proof. vm_compute. reflexivity. Qed.

(* ===================================================================== *)
(** ** Properties of the translation engine *)
(* ===================================================================== *)

Module EngineProps.

Import Engine.

Local Open Scope Z_scope.

(** *** The Subnet Calculator *)

Example subnet_single_host :
  deriveSubnet (mkAddr IPv4 2886847766) None
  = inr (mkSubnet 32 4294967295 2886847766 2886847766).
Proof. vm_compute. reflexivity. Qed.

Example subnet_bad_prefix :
  deriveSubnet (mkAddr IPv4 2886847766) (Some 33) = inl InvalidPrefix.
Proof. reflexivity. Qed.

Example subnet_172_16 :
  deriveSubnet (mkAddr IPv4 2886847766) (Some 16)
  = inr (mkSubnet 16 4294901760 2886795264 2886860799).
Proof. vm_compute. reflexivity. Qed.

Lemma land_le_l a m : 0 <= a -> Z.land a m <= a.
Proof.
  intros Ha. apply (Z.ldiff_le (Z.land a m) a Ha).
  apply Z.bits_inj'. intros n Hn.
  rewrite Z.ldiff_spec, Z.land_spec, Z.bits_0.
  by destruct (Z.testbit a n), (Z.testbit m n).
Qed.

Lemma lor_ge_l a c : 0 <= a -> 0 <= c -> a <= Z.lor a c.
Proof.
  intros Ha Hc.
  assert (H : 0 <= Z.lor a c) by (by apply Z.lor_nonneg).
  apply (Z.ldiff_le a (Z.lor a c) H).
  apply Z.bits_inj'. intros n Hn.
  rewrite Z.ldiff_spec, Z.lor_spec, Z.bits_0.
  by destruct (Z.testbit a n), (Z.testbit c n).
Qed.

Lemma not_within_nonneg w m : 0 <= w -> 0 <= not_within w m.
Proof.
  intros Hw. unfold not_within. apply Z.land_nonneg. right.
  rewrite Z.ones_equiv. pose proof (Z.pow_pos_nonneg 2 w). lia.
Qed.

(** C7. For every address within the range of its family and every
    prefix length from zero up to the width of the family, [deriveSubnet]
    yields a context, and in it
    [networkAddress <= bits <= broadcastAddress] as unsigned integers. *)
Theorem deriveSubnet_bounds (addr : CanonicalAddress) (p : Z) :
  valid addr ->
  0 <= p <= width (family addr) ->
  exists ctx,
    deriveSubnet addr (Some p) = inr ctx
    /\ prefixLength ctx = p
    /\ 0 <= networkAddress ctx
    /\ networkAddress ctx <= bits addr
    /\ bits addr <= broadcastAddress ctx.
Proof.
  intros [Hlo Hhi] [Hp0 Hpw]. unfold deriveSubnet. simpl.
  destruct (Z.ltb_spec p 0); [lia|].
  destruct (Z.ltb_spec (width (family addr)) p); [lia|]. simpl.
  eexists. split; [reflexivity|]. simpl. split; [reflexivity|].
  split; [|split].
  - apply Z.land_nonneg. by left.
  - by apply land_le_l.
  - apply lor_ge_l; [done|]. apply not_within_nonneg. lia.
Qed.

Lemma deriveSubnet_bounds_witness :
  valid (mkAddr IPv4 2886847766)
  /\ 0 <= 16 <= width (family (mkAddr IPv4 2886847766))
  /\ exists ctx,
       deriveSubnet (mkAddr IPv4 2886847766) (Some 16) = inr ctx
       /\ prefixLength ctx = 16
       /\ 0 <= networkAddress ctx
       /\ networkAddress ctx <= bits (mkAddr IPv4 2886847766)
       /\ bits (mkAddr IPv4 2886847766) <= broadcastAddress ctx.
Proof.
  assert (V : valid (mkAddr IPv4 2886847766)) by (unfold valid; simpl; lia).
  assert (P : 0 <= 16 <= width (family (mkAddr IPv4 2886847766)))
    by (simpl; lia).
  split; [exact V|]. split; [exact P|].
  exact (deriveSubnet_bounds (mkAddr IPv4 2886847766) 16 V P).
Defined.

(** *** The parser and the compressed form at work *)

Example parse_v4 : parse "172.17.205.22" = inr (mkAddr IPv4 2886847766).
Proof. vm_compute. reflexivity. Qed.

Example parse_v4_zeros : parse " 172.017.205.022 " = inr (mkAddr IPv4 2886847766).
Proof. vm_compute. reflexivity. Qed.

Example parse_v4_range : parse "999.1.1.1" = inl OutOfRange.
Proof. vm_compute. reflexivity. Qed.

Example parse_v6_one : parse "::1" = inr (mkAddr IPv6 1).
Proof. vm_compute. reflexivity. Qed.

Example parse_v6_mapped :
  parse "::FFFF:172.17.205.22" = inr (mkAddr IPv6 281473568591126).
Proof. vm_compute. reflexivity. Qed.

Example parse_v6_full :
  parse "2001:0db8:0000:0000:0001:0000:0000:0001"
  = inr (mkAddr IPv6 42540766411282592856904266426630537217).
Proof. vm_compute. reflexivity. Qed.

Example compressed_v6_full :
  compressed 2 (mkAddr IPv6 42540766411282592856904266426630537217)
  = "2001:db8::1:0:0:1".
Proof. vm_compute. reflexivity. Qed.

Example compressed_v6_mapped :
  compressed 2 (mkAddr IPv6 281473568591126) = "::ffff:ac11:cd16".
Proof. vm_compute. reflexivity. Qed.

Example compressed_v6_zero : compressed 2 (mkAddr IPv6 0) = "::".
Proof. vm_compute. reflexivity. Qed.

Example compressed_v4 :
  compressed 2 (mkAddr IPv4 2886847766) = "172.17.205.22".
Proof. vm_compute. reflexivity. Qed.

Example parse_integer_small : parse "2886847766" = inr (mkAddr IPv4 2886847766).
Proof. vm_compute. reflexivity. Qed.

Example parse_integer_hex : parse "0x100000000" = inr (mkAddr IPv6 4294967296).
Proof. vm_compute. reflexivity. Qed.

(** *** Texts: pieces, separators and the [::] gap *)

Lemma split_on_none sep s : sep ∉ s -> split_on sep s = [s].
Proof.
  induction s as [|c r IH]; intros H; simpl; [done|].
  apply not_elem_of_cons in H. destruct H as [Hc Hr].
  destruct (Ascii.eqb_spec c sep); [congruence|]. by rewrite IH.
Qed.

Lemma split_on_app sep x t :
  sep ∉ x -> split_on sep (x ++ sep :: t) = x :: split_on sep t.
Proof.
  induction x as [|c r IH]; intros H; simpl.
  - by rewrite Ascii.eqb_refl.
  - apply not_elem_of_cons in H. destruct H as [Hc Hr].
    destruct (Ascii.eqb_spec c sep); [congruence|]. by rewrite IH.
Qed.

Lemma split_join sep xs :
  xs ≠ [] -> Forall (fun x => sep ∉ x) xs -> split_on sep (join sep xs) = xs.
Proof.
  induction xs as [|x r IH]; [done|]. intros _ H.
  apply Forall_cons in H. destruct H as [Hx Hr].
  simpl. destruct r as [|y r'].
  - by apply split_on_none.
  - rewrite split_on_app by done. f_equal. by apply IH.
Qed.

Lemma cut_gap_cons c c' r :
  cut_gap (c :: c' :: r)
  = if Ascii.eqb c ":" && Ascii.eqb c' ":" then Some ([], r)
    else match cut_gap (c' :: r) with
         | Some (l, t) => Some (c :: l, t)
         | None => None
         end.
Proof. reflexivity. Qed.

Lemma cut_gap_tight l r :
  tight l = true -> cut_gap (l ++ ":"%char :: ":"%char :: r) = Some (l, r).
Proof.
  induction l as [|c l IH]; intros T; [done|].
  simpl in T. destruct l as [|c' l'].
  - simpl app. rewrite cut_gap_cons.
    destruct (Ascii.eqb c ":"); [done|]. reflexivity.
  - simpl app in *. rewrite cut_gap_cons.
    destruct (Ascii.eqb c ":") eqn:C.
    + apply andb_true_iff in T. destruct T as [N T].
      apply negb_true_iff in N. rewrite N. simpl andb. cbv iota.
      by rewrite IH.
    + simpl andb. cbv iota. by rewrite IH.
Qed.

Lemma cut_gap_none s : tight s = true -> cut_gap s = None.
Proof.
  induction s as [|c s IH]; intros T; [done|].
  simpl in T. destruct s as [|c' s']; [done|].
  rewrite cut_gap_cons.
  destruct (Ascii.eqb c ":") eqn:C.
  - apply andb_true_iff in T. destruct T as [N T].
    apply negb_true_iff in N. rewrite N. simpl andb. cbv iota.
    by rewrite IH.
  - simpl andb. cbv iota. by rewrite IH.
Qed.

Lemma tight_plain x t : ":"%char ∉ x -> x ≠ [] \/ t ≠ [] -> tight (x ++ t) = tight t.
Proof.
  induction x as [|c x IH]; intros H N; [done|].
  apply not_elem_of_cons in H. destruct H as [Hc Hx]. simpl.
  destruct (Ascii.eqb_spec c ":"); [congruence|].
  destruct x as [|c' x']; [done|]. apply IH; [done|]. by left.
Qed.

Lemma tight_of_plain x : ":"%char ∉ x -> tight x = true.
Proof.
  induction x as [|c x IH]; intros H; [done|].
  apply not_elem_of_cons in H. destruct H as [Hc Hx]. simpl.
  destruct (Ascii.eqb_spec c ":"); [congruence|]. by apply IH.
Qed.

Lemma tight_join xs :
  Forall (fun x => x ≠ [] /\ ":"%char ∉ x) xs -> tight (join ":" xs) = true.
Proof.
  induction xs as [|x r IH]; [done|]. intros H.
  apply Forall_cons in H. destruct H as [[Hn Hx] Hr]. simpl.
  destruct r as [|y r'].
  - by apply tight_of_plain.
  - rewrite tight_plain by (done || by left).
    specialize (IH Hr). apply Forall_cons in Hr. destruct Hr as [[Hyn Hy] _].
    destruct y as [|c y']; [done|].
    apply not_elem_of_cons in Hy. destruct Hy as [Hc _].
    assert (E : exists rest, join ":" ((c :: y') :: r') = c :: rest)
      by (simpl; destruct r'; eauto).
    destruct E as [rest E]. rewrite E in *.
    change (tight (":"%char :: c :: rest))
      with (negb (Ascii.eqb c ":") && tight (c :: rest)).
    rewrite IH. by destruct (Ascii.eqb_spec c ":").
Qed.

(** The characters of a joined text. *)
Lemma Forall_join (P : ascii -> Prop) sep xs :
  P sep -> Forall (Forall P) xs -> Forall P (join sep xs).
Proof.
  intros Hs. induction xs as [|x r IH]; intros H; [constructor|].
  apply Forall_cons in H. destruct H as [Hx Hr]. simpl.
  destruct r as [|y r']; [done|].
  apply Forall_app. split; [done|]. constructor; [done|]. by apply IH.
Qed.

Lemma skip_space_id s : Forall (fun c => is_space c = false) s -> skip_space s = s.
Proof. destruct 1 as [|c s Hc Hs]; simpl; [done|]. by rewrite Hc. Qed.

(** A text without white space is left alone by the trimming. *)
Lemma trim_space_id s : Forall (fun c => is_space c = false) s -> trim_space s = s.
Proof.
  intros H. unfold trim_space. rewrite (skip_space_id s H).
  rewrite skip_space_id by (by apply Forall_reverse).
  apply reverse_involutive.
Qed.

(** *** Digits *)

Ltac euclid := Z.to_euclidean_division_equations; lia.

Ltac decide_tests :=
  repeat match goal with
         | |- context [(?a <=? ?b)] => destruct (Z.leb_spec a b)
         | |- context [(?a <? ?b)] => destruct (Z.ltb_spec a b)
         | |- context [(?a =? ?b)] => destruct (Z.eqb_spec a b)
         end; simpl; try lia.

Lemma code_digit_char d :
  0 <= d < 16 -> code (digit_char d) = if d <? 10 then 48 + d else 87 + d.
Proof.
  intros H. unfold code, digit_char. rewrite N_ascii_embedding.
  - rewrite Z2N.id; [done|]. destruct (Z.ltb_spec d 10); lia.
  - destruct (Z.ltb_spec d 10); lia.
Qed.

Lemma hex_value_digit_char d : 0 <= d < 16 -> hex_value (digit_char d) = Some d.
Proof.
  intros H. unfold hex_value. rewrite (code_digit_char d H).
  destruct (Z.ltb_spec d 10); decide_tests; f_equal; lia.
Qed.

Lemma digit_value_digit_char d : 0 <= d < 10 -> digit_value (digit_char d) = Some d.
Proof.
  intros H. unfold digit_value. rewrite code_digit_char by lia.
  destruct (Z.ltb_spec d 10); decide_tests; f_equal; lia.
Qed.

Lemma hex_value_bound c d : hex_value c = Some d -> 0 <= d < 16.
Proof.
  unfold hex_value. decide_tests; intros [=]; lia.
Qed.

Lemma digit_value_bound c d : digit_value c = Some d -> 0 <= d < 10.
Proof.
  unfold digit_value. decide_tests; intros [=]; lia.
Qed.

Lemma digit_char_hexish d : 0 <= d < 16 -> hexish (digit_char d).
Proof.
  intros H. unfold hexish. rewrite (code_digit_char d H).
  destruct (Z.ltb_spec d 10); lia.
Qed.

Lemma hexish_no_space c : hexish c -> is_space c = false.
Proof. unfold hexish, is_space. intros H. decide_tests. Qed.

Lemma hexish_not_colon c : hexish c -> c ≠ ":"%char.
Proof.
  intros H ->. unfold hexish in H. change (code ":") with 58 in H. lia.
Qed.

Lemma hexish_not_dot c : hexish c -> c ≠ "."%char.
Proof.
  intros H ->. unfold hexish in H. change (code ".") with 46 in H. lia.
Qed.

Ltac all_hexish :=
  solve [ repeat (apply Forall_cons_2; [apply digit_char_hexish; euclid|]);
          constructor ].

Lemma print_octet_spec n :
  0 <= n < 256 ->
  decimal (print_octet n) = Some n
  /\ Forall hexish (print_octet n)
  /\ print_octet n ≠ [].
Proof.
  intros H. unfold print_octet.
  destruct (Z.ltb_spec n 10); [|destruct (Z.ltb_spec n 100)];
    (split; [|split; [|done]]).
  - unfold decimal. cbn [number_of]. rewrite digit_value_digit_char by lia.
    f_equal; lia.
  - all_hexish.
  - unfold decimal. cbn [number_of].
    rewrite !digit_value_digit_char by euclid. f_equal; euclid.
  - all_hexish.
  - unfold decimal. cbn [number_of].
    rewrite !digit_value_digit_char by euclid. f_equal; euclid.
  - all_hexish.
Qed.

Lemma print_group_spec g :
  0 <= g < 65536 ->
  group (print_group g) = Some g
  /\ Forall hexish (print_group g)
  /\ print_group g ≠ [].
Proof.
  intros H. unfold print_group.
  destruct (Z.ltb_spec g 16);
    [|destruct (Z.ltb_spec g 256); [|destruct (Z.ltb_spec g 4096)]];
    (split; [|split; [|done]]);
    try all_hexish;
    unfold group, hexadecimal; cbn [length Nat.leb andb number_of];
    rewrite !hex_value_digit_char by euclid; f_equal; euclid.
Qed.

(** *** Digits of a value in a base *)

Lemma value_be_snoc base ds d :
  value_be base (ds ++ [d]) = value_be base ds * base + d.
Proof. unfold value_be. by rewrite foldl_app. Qed.

Lemma digits_be_length base n b : length (digits_be base n b) = n.
Proof.
  revert b. induction n as [|n IH]; intros b; simpl; [done|].
  rewrite length_app, IH. simpl. lia.
Qed.

Lemma digits_be_bound base n b :
  0 < base -> Forall (fun d => 0 <= d < base) (digits_be base n b).
Proof.
  intros Hb. revert b. induction n as [|n IH]; intros b; simpl.
  - constructor.
  - apply Forall_app. split; [apply IH|].
    apply Forall_cons_2; [|constructor]. by apply Z.mod_pos_bound.
Qed.

Lemma value_digits base n b :
  0 < base -> value_be base (digits_be base n b) = b mod base ^ Z.of_nat n.
Proof.
  intros Hb. revert b. induction n as [|n IH]; intros b.
  - simpl. by rewrite Z.mod_1_r.
  - cbn [digits_be]. rewrite value_be_snoc, IH.
    rewrite Nat2Z.inj_succ, Z.pow_succ_r by lia.
    rewrite Z.rem_mul_r by (try apply Z.pow_nonzero; lia). lia.
Qed.

Lemma value_be_bound base ds :
  0 < base ->
  Forall (fun d => 0 <= d < base) ds ->
  0 <= value_be base ds < base ^ Z.of_nat (length ds).
Proof.
  intros Hb. induction ds as [|d ds IH] using rev_ind; intros H.
  - simpl. unfold value_be. simpl. lia.
  - apply Forall_app in H. destruct H as [Hds Hd].
    apply Forall_cons in Hd. destruct Hd as [Hd _].
    specialize (IH Hds). rewrite value_be_snoc, length_app. simpl.
    replace (Z.of_nat (length ds + 1)) with (Z.succ (Z.of_nat (length ds))) by lia.
    rewrite Z.pow_succ_r by lia. nia.
Qed.

(** *** Runs of zero groups *)

Lemma zero_run_zeros gs : take (zero_run gs) gs = replicate (zero_run gs) 0.
Proof.
  induction gs as [|g r IH]; simpl; [done|].
  destruct (Z.eqb_spec g 0); [|done]. subst. simpl. by rewrite IH.
Qed.

Lemma longest_zero_run_zeros gs s l :
  longest_zero_run gs = (s, l) -> take l (drop s gs) = replicate l 0.
Proof.
  revert s l. induction gs as [|g r IH]; intros s l.
  - simpl. intros [= <- <-]. done.
  - cbn [longest_zero_run].
    destruct (longest_zero_run r) as [s' l'] eqn:E.
    destruct (l' <=? zero_run (g :: r))%nat.
    + intros [= <- <-]. exact (zero_run_zeros (g :: r)).
    + intros [= <- <-]. simpl. by apply IH.
Qed.

(** The run found is a longest one, and the leftmost of the longest:
    no run of zeros is longer, and none that starts before it is as
    long. *)
Lemma longest_zero_run_longest gs s l i :
  longest_zero_run gs = (s, l) ->
  (zero_run (drop i gs) <= l)%nat
  /\ ((i < s)%nat -> (zero_run (drop i gs) < l)%nat).
Proof.
  revert s l i. induction gs as [|g r IH]; intros s l i.
  - simpl. intros [= <- <-]. rewrite drop_nil. simpl. lia.
  - cbn [longest_zero_run].
    destruct (longest_zero_run r) as [s' l'] eqn:E.
    remember (zero_run (g :: r)) as here eqn:Hh.
    destruct (Nat.leb_spec l' here).
    + intros [= <- <-]. split; [|lia]. destruct i as [|j].
      * simpl drop. rewrite <- Hh. lia.
      * destruct (IH s' l' j eq_refl) as [Hle _]. simpl drop. lia.
    + intros [= <- <-]. destruct i as [|j].
      * simpl drop. rewrite <- Hh. lia.
      * destruct (IH s' l' j eq_refl) as [Hle Hlt]. simpl drop.
        split; [done|]. intros Hj. apply Hlt. lia.
Qed.

(** The groups split around a run of zeros. *)
Lemma around_zero_run (gs : list Z) s l :
  take l (drop s gs) = replicate l 0 ->
  gs = take s gs ++ replicate l 0 ++ drop (s + l) gs
  /\ (length (take s gs) + length (drop (s + l) gs) + l = length gs)%nat.
Proof.
  intros H. split.
  - rewrite <- H, <- drop_drop, take_drop. by rewrite take_drop.
  - assert (L : length (take l (drop s gs)) = l) by (by rewrite H, length_replicate).
    rewrite length_take, length_drop in L.
    rewrite length_take, length_drop. lia.
Qed.

(** *** Reading back what the formatter wrote *)

Lemma groups_of_printed v4 gs :
  Forall is_group gs -> groups_of v4 (print_group <$> gs) = inr gs.
Proof.
  induction gs as [|g r IH]; intros H; [done|].
  apply Forall_cons in H. destruct H as [Hg Hr].
  destruct (print_group_spec g Hg) as (G & _ & _).
  cbn [fmap list_fmap groups_of]. rewrite G.
  destruct r as [|g' r']; [done|].
  cbn [fmap list_fmap] in *. by rewrite (IH Hr).
Qed.

Lemma printed_groups_plain gs :
  Forall is_group gs ->
  Forall (fun x : text => x ≠ [] /\ ":"%char ∉ x) (print_group <$> gs).
Proof.
  intros H. apply Forall_fmap. eapply Forall_impl; [exact H|].
  intros g Hg. simpl. destruct (print_group_spec g Hg) as (_ & Hh & Hn).
  split; [done|]. intros Hin.
  rewrite Forall_forall in Hh. by apply (hexish_not_colon _ (Hh _ Hin)).
Qed.

Lemma side_printed v4 gs :
  Forall is_group gs -> side v4 (join ":" (print_group <$> gs)) = inr gs.
Proof.
  intros H. pose proof (printed_groups_plain gs H) as P.
  destruct gs as [|g r]; [done|].
  assert (S : split_on ":" (join ":" (print_group <$> g :: r))
              = print_group <$> g :: r).
  { apply split_join; [done|]. eapply Forall_impl; [exact P|]. by intros ? [_ ?]. }
  unfold side. rewrite S, (groups_of_printed v4 _ H).
  cbn [fmap list_fmap] in *. apply Forall_cons in P. destruct P as [[Hn _] _].
  simpl. destruct (print_group g) as [|c x]; [done|].
  by destruct (print_group <$> r).
Qed.

Lemma printed_octets_hexish ds :
  Forall is_octet ds -> Forall (Forall hexish) (print_octet <$> ds).
Proof.
  intros H. apply Forall_fmap. eapply Forall_impl; [exact H|].
  intros d Hd. simpl. by destruct (print_octet_spec d Hd) as (_ & Hh & _).
Qed.

Lemma printed_groups_hexish gs :
  Forall is_group gs -> Forall (Forall hexish) (print_group <$> gs).
Proof.
  intros H. apply Forall_fmap. eapply Forall_impl; [exact H|].
  intros g Hg. simpl. by destruct (print_group_spec g Hg) as (_ & Hh & _).
Qed.

Lemma hexish_plain (P : ascii -> Prop) xs :
  (forall c, hexish c -> P c) -> Forall (Forall hexish) xs -> Forall (Forall P) xs.
Proof.
  intros HP H. eapply Forall_impl; [exact H|]. intros x Hx.
  eapply Forall_impl; [exact Hx|]. exact HP.
Qed.

(** The dotted form of four octets is read back as those octets. *)
Lemma dotted_printed ds :
  length ds = 4%nat ->
  Forall is_octet ds ->
  trim_space (join "." (print_octet <$> ds)) = join "." (print_octet <$> ds)
  /\ dotted (join "." (print_octet <$> ds)) = Some ds
  /\ octets_ok ds = true.
Proof.
  intros L H. pose proof (printed_octets_hexish ds H) as Hh.
  split; [|split].
  - apply trim_space_id. apply Forall_join; [done|].
    apply (hexish_plain _ _ hexish_no_space Hh).
  - unfold dotted. rewrite split_join.
    + destruct ds as [|a [|b [|c [|d [|]]]]]; try discriminate L.
      repeat (apply Forall_cons in H; destruct H as [? H]).
      cbn [fmap list_fmap mapM].
      destruct (print_octet_spec a) as (-> & _); [done|].
      destruct (print_octet_spec b) as (-> & _); [done|].
      destruct (print_octet_spec c) as (-> & _); [done|].
      destruct (print_octet_spec d) as (-> & _); [done|].
      reflexivity.
    + by destruct ds.
    + eapply Forall_impl; [exact Hh|]. intros x Hx Hin.
      rewrite Forall_forall in Hx. by apply (hexish_not_dot _ (Hx _ Hin)).
  - unfold octets_ok. apply forallb_forall. intros d Hd.
    rewrite Forall_forall in H. apply list_elem_of_In, H in Hd.
    unfold is_octet in Hd. apply Z.leb_le. lia.
Qed.

Lemma group_char_no_space c : group_char c -> is_space c = false.
Proof. intros [H| ->]; [by apply hexish_no_space|done]. Qed.

Lemma group_char_not_dot s : Forall group_char s -> "."%char ∉ s.
Proof.
  intros H Hin. rewrite Forall_forall in H.
  destruct (H _ Hin) as [Hh|[=]]. by apply (hexish_not_dot _ Hh).
Qed.

Lemma joined_groups_chars gs :
  Forall is_group gs -> Forall group_char (join ":" (print_group <$> gs)).
Proof.
  intros H. apply Forall_join; [by right|].
  eapply hexish_plain; [|by apply printed_groups_hexish]. by left.
Qed.

Lemma dotted_none s : "."%char ∉ s -> dotted s = None.
Proof. intros H. unfold dotted. by rewrite split_on_none. Qed.

Section ReadBack.

Variable min_run : nat.
Hypothesis min_run_pos : (1 <= min_run)%nat.

(** Eight groups written in the compressed form are read back as the
    same eight groups. *)
Lemma parse_written gs :
  length gs = 8%nat ->
  Forall is_group gs ->
  Forall group_char (write_groups min_run gs)
  /\ ":"%char ∈ write_groups min_run gs
  /\ parse_ipv6 (write_groups min_run gs) = inr gs.
Proof.
  intros L H. unfold write_groups.
  destruct (longest_zero_run gs) as [s l] eqn:E.
  destruct (min_run <=? l)%nat eqn:M.
  - apply Nat.leb_le in M.
    destruct (around_zero_run gs s l (longest_zero_run_zeros gs s l E))
      as [D Len].
    set (pre := take s gs) in *. set (post := drop (s + l) gs) in *.
    assert (Hpre : Forall is_group pre) by (by apply Forall_take).
    assert (Hpost : Forall is_group post) by (by apply Forall_drop).
    split; [|split].
    + apply Forall_app. split; [by apply joined_groups_chars|].
      apply Forall_cons_2; [by right|]. apply Forall_cons_2; [by right|].
      by apply joined_groups_chars.
    + apply elem_of_app. right. by left.
    + unfold parse_ipv6. rewrite cut_gap_tight.
      * rewrite (side_printed false pre Hpre), (side_printed true post Hpost).
        destruct (Nat.leb_spec (length pre + length post) 7); [|lia].
        f_equal. etrans; [|symmetry; exact D]. do 3 f_equal. lia.
      * apply tight_join. by apply printed_groups_plain.
  - pose proof (printed_groups_plain gs H) as P.
    split; [by apply joined_groups_chars|]. split.
    + destruct gs as [|g [|g' r]]; try discriminate L.
      cbn [fmap list_fmap join]. apply elem_of_app. right. by left.
    + unfold parse_ipv6. rewrite cut_gap_none by (by apply tight_join).
      rewrite split_join.
      * rewrite (groups_of_printed true gs H), L. reflexivity.
      * by destruct gs.
      * eapply Forall_impl; [exact P|]. by intros ? [_ ?].
Qed.

(** The compressed form of an address in range is parsed back to that
    address. *)
Lemma parse_compressed_text a :
  valid a -> parse_text (compressed_text min_run a) = inr a.
Proof.
  destruct a as [f b]. unfold valid, compressed_text. cbn [family bits].
  intros V. unfold parse_text. destruct f; cbn [width] in V.
  - destruct (dotted_printed (digits_be 256 4 b)) as (T & D & O).
    { apply digits_be_length. }
    { by apply digits_be_bound. }
    cbv zeta. rewrite T, D, O. do 2 f_equal.
    rewrite value_digits by done. apply Z.mod_small.
    change (256 ^ Z.of_nat 4) with (2 ^ 32). lia.
  - destruct (parse_written (digits_be 65536 8 b)) as (C & I & P).
    { apply digits_be_length. }
    { by apply digits_be_bound. }
    cbv zeta. rewrite trim_space_id.
    + rewrite dotted_none by (by apply group_char_not_dot).
      rewrite bool_decide_eq_true_2 by done. rewrite P. do 2 f_equal.
      rewrite value_digits by done. apply Z.mod_small.
      change (65536 ^ Z.of_nat 8) with (2 ^ 128). lia.
    + eapply Forall_impl; [exact C|]. apply group_char_no_space.
Qed.

End ReadBack.

(** *** What the parser accepts is in range *)

Lemma number_of_bound base value acc s v :
  1 <= base ->
  (forall c d, value c = Some d -> 0 <= d < base) ->
  0 <= acc ->
  number_of base value acc s = Some v ->
  acc * base ^ Z.of_nat (length s) <= v
  < (acc + 1) * base ^ Z.of_nat (length s).
Proof.
  intros Hb Hv. revert acc. induction s as [|c r IH]; intros acc Ha.
  - simpl. intros [= ->]. lia.
  - cbn [number_of]. destruct (value c) as [d|] eqn:E; [|done].
    intros N. apply Hv in E. apply IH in N; [|nia].
    cbn [length]. rewrite Nat2Z.inj_succ, Z.pow_succ_r by lia.
    assert (0 < base ^ Z.of_nat (length r)) by (apply Z.pow_pos_nonneg; lia).
    nia.
Qed.

Lemma decimal_nonneg s v : decimal s = Some v -> 0 <= v.
Proof.
  unfold decimal. destruct s as [|c r]; [done|]. intros N.
  apply number_of_bound in N; [|lia|apply digit_value_bound|lia]. lia.
Qed.

Lemma hexadecimal_nonneg s v : hexadecimal s = Some v -> 0 <= v.
Proof.
  unfold hexadecimal. destruct s as [|c r]; [done|]. intros N.
  apply number_of_bound in N; [|lia|apply hex_value_bound|lia]. lia.
Qed.

Lemma group_bound p g : group p = Some g -> is_group g.
Proof.
  unfold group, hexadecimal.
  destruct (Nat.leb_spec 1 (length p)); [|done].
  destruct (Nat.leb_spec (length p) 4); [|done]. simpl.
  destruct p as [|c r]; [done|]. intros N.
  apply number_of_bound in N; [|lia|apply hex_value_bound|lia].
  unfold is_group.
  assert (16 ^ Z.of_nat (length (c :: r)) <= 16 ^ 4)
    by (apply Z.pow_le_mono_r; lia).
  lia.
Qed.

Lemma groups_of_bound v4 pieces gs :
  groups_of v4 pieces = inr gs -> Forall is_group gs.
Proof.
  revert gs. induction pieces as [|p r IH]; intros gs.
  - intros [= <-]. constructor.
  - cbn [groups_of]. destruct r as [|q r'].
    + destruct (group p) as [g|] eqn:G.
      * intros [= <-]. apply Forall_cons_2; [|constructor]. by eapply group_bound.
      * destruct (if v4 then dotted p else None) as [ds|]; [|done].
        destruct (octets_ok ds); [|done]. intros [= <-].
        exact (digits_be_bound 65536 2 (value_be 256 ds) ltac:(lia)).
    + destruct (group p) as [g|] eqn:G; [|done].
      destruct (groups_of v4 (q :: r')) as [e|gs'] eqn:R; [done|].
      intros [= <-]. apply Forall_cons_2; [by eapply group_bound|]. by apply IH.
Qed.

Lemma side_bound v4 s gs : side v4 s = inr gs -> Forall is_group gs.
Proof.
  unfold side. destruct s.
  - intros [= <-]. constructor.
  - apply groups_of_bound.
Qed.

Lemma parse_ipv6_bound s gs :
  parse_ipv6 s = inr gs -> length gs = 8%nat /\ Forall is_group gs.
Proof.
  unfold parse_ipv6. destruct (cut_gap s) as [[l r]|].
  - destruct (side false l) as [e|gl] eqn:Sl; [done|].
    destruct (side true r) as [e|gr] eqn:Sr; [done|].
    destruct (Nat.leb_spec (length gl + length gr) 7); [|done].
    intros [= <-]. split.
    + rewrite !length_app, length_replicate. lia.
    + apply Forall_app. split; [by eapply side_bound|].
      apply Forall_app. split; [|by eapply side_bound].
      apply Forall_replicate. unfold is_group. lia.
  - destruct (groups_of true (split_on ":" s)) as [e|gs'] eqn:G; [done|].
    destruct (Nat.eqb_spec (length gs') 8); [|done].
    intros [= <-]. split; [done|]. by eapply groups_of_bound.
Qed.

Lemma dotted_bound s ds :
  dotted s = Some ds -> length ds = 4%nat /\ Forall (fun d => 0 <= d) ds.
Proof.
  unfold dotted.
  destruct (split_on "." s) as [|a [|b [|c [|d [|]]]]]; try done.
  intros H. apply mapM_Some in H. split.
  - by rewrite <- (Forall2_length _ _ _ H).
  - induction H as [|x y xs ys Hxy _ IH]; constructor; [|exact IH].
    by eapply decimal_nonneg.
Qed.

Lemma integer_nonneg s v : integer s = Some v -> 0 <= v.
Proof.
  unfold integer.
  destruct s as [|c [|x r]]; [apply decimal_nonneg| |];
    destruct c as [[] [] [] [] [] [] [] []]; try apply decimal_nonneg.
  destruct (Ascii.eqb x "x" || Ascii.eqb x "X").
  - apply hexadecimal_nonneg.
  - apply decimal_nonneg.
Qed.

(** Every address the parser returns satisfies the invariant of
    [CanonicalAddress]. *)
Lemma parse_text_valid s a : parse_text s = inr a -> valid a.
Proof.
  unfold parse_text. cbv zeta.
  destruct (dotted (trim_space s)) as [ds|] eqn:D.
  - destruct (octets_ok ds) eqn:O; [|done]. intros [= <-].
    apply dotted_bound in D. destruct D as [L N].
    unfold valid. cbn [family bits width].
    assert (B : Forall (fun d => 0 <= d < 256) ds).
    { apply Forall_forall. intros d Hd.
      rewrite Forall_forall in N. specialize (N d Hd).
      unfold octets_ok in O. rewrite forallb_forall in O.
      apply list_elem_of_In, O, Z.leb_le in Hd. lia. }
    pose proof (value_be_bound 256 ds ltac:(lia) B) as V.
    rewrite L in V. change (256 ^ Z.of_nat 4) with (2 ^ 32) in V. exact V.
  - case_bool_decide.
    + destruct (parse_ipv6 (trim_space s)) as [e|gs] eqn:P; [done|].
      intros [= <-]. apply parse_ipv6_bound in P. destruct P as [L B].
      unfold valid. cbn [family bits width].
      pose proof (value_be_bound 65536 gs ltac:(lia) B) as V.
      rewrite L in V. change (65536 ^ Z.of_nat 8) with (2 ^ 128) in V. exact V.
    + destruct (integer (trim_space s)) as [v|] eqn:I; [|done].
      apply integer_nonneg in I.
      destruct (Z.ltb_spec v (2 ^ 32)).
      * intros [= <-]. unfold valid. cbn [family bits width]. lia.
      * destruct (Z.ltb_spec v (2 ^ 128)); [|done].
        intros [= <-]. unfold valid. cbn [family bits width]. lia.
Qed.

(** C6. For every text the parser accepts, and so for every valid
    textual IPv4 or IPv6 address, the compressed form of the parsed
    address is itself accepted and denotes the same address: parsing it
    gives back the same family and the same bits, and the address is in
    range. This holds whichever least run length (one or more) the
    compression collapses. *)
Theorem parse_format_roundtrip
    (min_run : nat) (input : string) (a : CanonicalAddress) :
  (1 <= min_run)%nat ->
  parse input = inr a ->
  valid a /\ parse (compressed min_run a) = inr a.
Proof.
  intros M P. unfold parse in P. apply parse_text_valid in P.
  split; [exact P|]. unfold parse, compressed.
  rewrite String.list_ascii_of_string_of_list_ascii.
  by apply parse_compressed_text.
Qed.

Lemma parse_format_roundtrip_witness :
  (1 <= 2)%nat
  /\ parse "2001:0DB8:0000:0000:0001:0000:0000:0001"
     = inr (mkAddr IPv6 42540766411282592856904266426630537217)
  /\ valid (mkAddr IPv6 42540766411282592856904266426630537217)
  /\ parse (compressed 2 (mkAddr IPv6 42540766411282592856904266426630537217))
     = inr (mkAddr IPv6 42540766411282592856904266426630537217).
Proof.
  assert (M : (1 <= 2)%nat) by lia.
  assert (P : parse "2001:0DB8:0000:0000:0001:0000:0000:0001"
              = inr (mkAddr IPv6 42540766411282592856904266426630537217))
    by (vm_compute; reflexivity).
  split; [exact M|]. split; [exact P|].
  exact (parse_format_roundtrip 2 _ _ M P).
Defined.

Example roundtrip_v4_zeros :
  (fun r => match r with inr a => Some (compressed 2 a) | inl _ => None end)
    (parse "172.017.205.022") = Some "172.17.205.22".
Proof. vm_compute. reflexivity. Qed.

End EngineProps.
